(** * ConsistentHashRing: a consistent hash ring over a binary search tree

    Shallow embedding of [chr.py] (classes [SubTree] and
    [ConsistentHashRing]) and the properties of its specification.

    Python objects are mutated in place; the tree is owned hierarchically
    (no node is shared), so every mutating method is embedded as a function
    returning the object after the call. *)

From Stdlib Require Import ZArith List Bool Lia Permutation Sorted.
Import ListNotations.
Open Scope Z_scope.

(** ** The environment: hashable Python values *)

(** What the code asks of a value: the builtin [hash(v)], its truth value
    (tested by [if best_match:]) and [==] (used by [in] when a class has no
    [__contains__]).  [hash_None] is [hash(None)].  The type [V] holds the
    values a ring stores.  [None] standing for "no value" (the argument of
    the constructor, an absent child, the answer of an empty ring) is
    rendered by [option]; [None] stored as a value, which [add_node(None)]
    does, is a value of [V] in a type that has it ([PyIntOrNone] below). *)
Class Hashable (V : Type) : Type := {
  hash : V -> Z;
  truth : V -> bool;
  py_eq : V -> V -> bool;
  hash_None : Z
}.

(** CPython's hash of an [int] on a 64-bit build: reduction modulo the
    Mersenne prime [2^61 - 1] keeping the sign, with [-1] (the error code of
    the C API) replaced by [-2]; the test-suite leaves [-1] out of its range
    for that reason. *)
Definition int_hash (n : Z) : Z :=
  let h := Z.sgn n * (Z.abs n mod (2 ^ 61 - 1)) in
  if h =? -1 then -2 else h.

#[export] Instance PyInt : Hashable Z := {|
  hash := int_hash;
  truth := fun n => negb (n =? 0);
  py_eq := Z.eqb;
  hash_None := 4238894112
|}.

(** Exceptions the embedded code can raise, and results of calls that can
    raise. *)
Inductive exn : Type := TypeError.

Inductive result (A : Type) : Type :=
| Ok (a : A)
| Raise (e : exn).
Arguments Ok {A} a.
Arguments Raise {A} e.

(** ** class SubTree *)

Section Ring.

Context {V : Type} {HV : Hashable V}.

(** A node: [self.value], [self.key], [self.left], [self.right]; an absent
    child is [None]. *)
#[local] Unset Elimination Schemes.
Inductive SubTree : Type :=
  Node (value : V) (key : Z) (left right : option SubTree).
#[local] Set Elimination Schemes.

Definition value (t : SubTree) : V := let (x, _, _, _) := t in x.
Definition key (t : SubTree) : Z := let (_, k, _, _) := t in k.
Definition left (t : SubTree) : option SubTree := let (_, _, l, _) := t in l.
Definition right (t : SubTree) : option SubTree := let (_, _, _, r) := t in r.

(** [SubTree.__init__(value)] with the default [left=None, right=None]. *)
Definition SubTree_init (v : V) : SubTree := Node v (hash v) None None.

(** [SubTree.add_child]. *)
Fixpoint add_child (self : SubTree) (v : V) : SubTree :=
  match self with
  | Node x k l r =>
      if hash v =? k then self
      else if hash v >? k then
        match r with
        | None => Node x k l (Some (SubTree_init v))
        | Some r' => Node x k l (Some (add_child r' v))
        end
      else
        match l with
        | None => Node x k (Some (SubTree_init v)) r
        | Some l' => Node x k (Some (add_child l' v)) r
        end
  end.

(** [SubTree._find_minimum_subtree_child_value]: the loop follows [left]. *)
Fixpoint _find_minimum_subtree_child_value (self : SubTree) : V :=
  match self with
  | Node x _ None _ => x
  | Node _ _ (Some l) _ => _find_minimum_subtree_child_value l
  end.

(** [SubTree._find_in_order_successor]. *)
Definition _find_in_order_successor (self : SubTree) : option V :=
  match right self with
  | None => None
  | Some r => Some (_find_minimum_subtree_child_value r)
  end.

(** [SubTree.remove_value]: the node that takes the place of [self].  With
    two children only [self.value] is assigned; [self.key] keeps the key
    computed at construction.  In that branch [right] is present, so
    [_find_in_order_successor] is the minimum of the right subtree (lemma
    [_find_in_order_successor_two_children]).  On a key mismatch both
    subtrees are visited. *)
Fixpoint remove_value (self : SubTree) (v : V) : option SubTree :=
  match self with
  | Node x k l r =>
      if hash v =? k then
        match l, r with
        | None, None => None
        | None, Some r' => Some r'
        | Some l', None => Some l'
        | Some l', Some r' =>
            let s := _find_minimum_subtree_child_value r' in
            Some (Node s k (Some l') (remove_value r' s))
        end
      else
        Some (Node x k
                (match l with Some l' => remove_value l' v | None => None end)
                (match r with Some r' => remove_value r' v | None => None end))
  end.

(** [SubTree.__contains__]. *)
Fixpoint contains (self : SubTree) (v : V) : bool :=
  match self with
  | Node _ k l r =>
      if hash v =? k then true
      else if hash v >? k then
        match r with None => false | Some r' => contains r' v end
      else
        match l with None => false | Some l' => contains l' v end
  end.

(** [SubTree.__iter__]: the values the generator yields, in order. *)
Fixpoint iter (self : SubTree) : list V :=
  match self with
  | Node x _ l r =>
      (match l with Some l' => iter l' | None => [] end)
        ++ x :: (match r with Some r' => iter r' | None => [] end)
  end.

(** ** class ConsistentHashRing *)

Record ConsistentHashRing : Type := Ring { head : option SubTree }.

(** [ConsistentHashRing.__init__(value=None)]. *)
Definition ConsistentHashRing_init (value : option V) : ConsistentHashRing :=
  match value with
  | None => Ring None
  | Some v => Ring (Some (SubTree_init v))
  end.

Definition add_node (self : ConsistentHashRing) (v : V) : ConsistentHashRing :=
  match head self with
  | None => Ring (Some (SubTree_init v))
  | Some h => Ring (Some (add_child h v))
  end.

Definition remove_node (self : ConsistentHashRing) (v : V) : ConsistentHashRing :=
  match head self with
  | None => self
  | Some h => Ring (remove_value h v)
  end.

(** [hash(best_match)] for a [best_match] that may still be [None]. *)
Definition hash_opt (o : option V) : Z :=
  match o with Some x => hash x | None => hash_None end.

(** [abs(current_node.key - key) < abs(best_match_key - key)], where
    [best_match_key] starts as [float("inf")], here [None]. *)
Definition closer (node_key target : Z) (best_match_key : option Z) : bool :=
  match best_match_key with
  | None => true
  | Some b => Z.abs (node_key - target) <? Z.abs (b - target)
  end.

(** The [while] loop of [find_best_match] from [current_node] on: [inl v]
    when the loop returns [v] on an exact match, [inr best_match] when it
    runs off the tree. *)
Fixpoint walk (target : Z) (current_node : SubTree)
    (best_match : option V) (best_match_key : option Z) : V + option V :=
  match current_node with
  | Node x k l r =>
      if k =? target then inl x
      else if k >? target then
        let best_match' :=
          if closer k target best_match_key then Some x else best_match in
        let best_match_key' := Some (hash_opt best_match') in
        match l with
        | None => inr best_match'
        | Some l' => walk target l' best_match' best_match_key'
        end
      else
        match r with
        | None => inr best_match
        | Some r' => walk target r' best_match best_match_key
        end
  end.

(** [ConsistentHashRing.find_best_match]; [None] is the [None] returned on the
    empty ring, [Some x] the stored value [x] returned otherwise. *)
Definition find_best_match (self : ConsistentHashRing) (v : V) : option V :=
  match head self with
  | None => None
  | Some h =>
      match walk (hash v) h None None with
      | inl x => Some x
      | inr best_match =>
          match best_match with
          | Some b =>
              if truth b then Some b
              else Some (_find_minimum_subtree_child_value h)
          | None => Some (_find_minimum_subtree_child_value h)
          end
      end
  end.

(** The builtin [iter(self.head)]: [None] is not iterable. *)
Definition py_iter (o : option SubTree) : result (list V) :=
  match o with
  | None => Raise TypeError
  | Some h => Ok (iter h)
  end.

(** [ConsistentHashRing.__iter__]. *)
Definition ring_iter (self : ConsistentHashRing) : result (list V) :=
  py_iter (head self).

(** [ConsistentHashRing.__len__]: [sum(1 for value in iter(self.head))]. *)
Definition ring_len (self : ConsistentHashRing) : result Z :=
  match py_iter (head self) with
  | Raise e => Raise e
  | Ok l => Ok (fold_left (fun n _ => n + 1) l 0)
  end.

(** [value in ring]: the class defines no [__contains__], so Python iterates
    the ring and answers whether some yielded value equals [value]. *)
Definition ring_in (self : ConsistentHashRing) (v : V) : result bool :=
  match ring_iter self with
  | Raise e => Raise e
  | Ok l => Ok (existsb (fun e => py_eq v e) l)
  end.

(** ** Sequences of calls, and what the tree stores *)

(** A call of one of the two mutating methods of the ring. *)
Inductive op : Type :=
| Add (v : V)
| Remove (v : V).

Definition apply_op (r : ConsistentHashRing) (o : op) : ConsistentHashRing :=
  match o with
  | Add v => add_node r v
  | Remove v => remove_node r v
  end.

(** The ring after a sequence of calls, first call first. *)
Definition run (ops : list op) (r : ConsistentHashRing) : ConsistentHashRing :=
  fold_left apply_op ops r.

(** The [(value, key)] attributes of the nodes, in traversal order. *)
Fixpoint nodes (t : SubTree) : list (V * Z) :=
  match t with
  | Node x k l r =>
      (match l with Some l' => nodes l' | None => [] end)
        ++ (x, k) :: (match r with Some r' => nodes r' | None => [] end)
  end.

Definition onodes (o : option SubTree) : list (V * Z) :=
  match o with Some t => nodes t | None => [] end.

(** The stored keys: the [key] attributes, in traversal order. *)
Definition keys (t : SubTree) : list Z := map snd (nodes t).

Definition okeys (o : option SubTree) : list Z := map snd (onodes o).

(** The search-tree order on the [key] attributes: left of a node all keys
    are smaller, right of it all are greater. *)
Fixpoint search_tree (t : SubTree) : Prop :=
  match t with
  | Node _ k l r =>
      (match l with
       | Some l' => Forall (fun k' => k' < k) (keys l') /\ search_tree l'
       | None => True
       end) /\
      (match r with
       | Some r' => Forall (fun k' => k < k') (keys r') /\ search_tree r'
       | None => True
       end)
  end.

Definition osearch_tree (o : option SubTree) : Prop :=
  match o with Some t => search_tree t | None => True end.

(** Every node satisfies [key == hash(value)]. *)
Definition consistent (t : SubTree) : Prop :=
  Forall (fun p => snd p = hash (fst p)) (nodes t).

(** The leftmost node, whose value [_find_minimum_subtree_child_value]
    returns. *)
Fixpoint leftmost (t : SubTree) : V * Z :=
  match t with
  | Node x k None _ => (x, k)
  | Node _ _ (Some l) _ => leftmost l
  end.

(** The first node in traversal order whose key is above [target]. *)
Definition successor (target : Z) (t : SubTree) : option (V * Z) :=
  find (fun p => target <? snd p) (nodes t).

(** The values a child yields; none when the child is absent. *)
Definition oiter (o : option SubTree) : list V :=
  match o with Some t => iter t | None => [] end.

(** The values of a sequence that are the first with their key, given the
    keys seen before. *)
Fixpoint keep_first (seen : list Z) (vs : list V) : list V :=
  match vs with
  | [] => []
  | v :: vs' =>
      if existsb (Z.eqb (hash v)) seen then keep_first seen vs'
      else v :: keep_first (hash v :: seen) vs'
  end.

(** The tree that leans to the right: each value is the root of the values
    after it. *)
Fixpoint chain (vs : list V) : option SubTree :=
  match vs with
  | [] => None
  | v :: vs' => Some (Node v (hash v) None (chain vs'))
  end.

(** Whether [remove_value] meets, for the key [h], a node with that key and
    both children: the case in which it copies the successor. *)
Fixpoint two_children_under (h : Z) (t : SubTree) : bool :=
  match t with
  | Node _ k l r =>
      if h =? k then
        match l, r with
        | Some _, Some _ => true
        | _, _ => false
        end
      else
        (match l with Some l' => two_children_under h l' | None => false end)
        || (match r with Some r' => two_children_under h r' | None => false end)
  end.

(** Induction on a node with the hypotheses for the children that are
    present. *)
Section SubTree_induction.

Variable P : SubTree -> Prop.

Definition on_child (o : option SubTree) : Prop :=
  match o with Some t => P t | None => True end.

Hypothesis P_Node :
  forall x k l r, on_child l -> on_child r -> P (Node x k l r).

Fixpoint SubTree_child_ind (t : SubTree) : P t :=
  match t with
  | Node x k l r =>
      P_Node x k l r
        (match l return on_child l with Some l' => SubTree_child_ind l' | None => I end)
        (match r return on_child r with Some r' => SubTree_child_ind r' | None => I end)
  end.

End SubTree_induction.

End Ring.

(** ** Rings of Python integers used below *)

Definition empty_ring : @ConsistentHashRing Z :=
  ConsistentHashRing_init None.

(** [add_node(5); add_node(3); add_node(8)] on an empty ring. *)
Definition ring_5_3_8 : @ConsistentHashRing Z :=
  run [Add 5; Add 3; Add 8] empty_ring.

(** The same ring after [remove_node(5)], a removal at a node with two
    children. *)
Definition ring_5_3_8_less_5 : @ConsistentHashRing Z :=
  run [Remove 5] ring_5_3_8.

(** [add_node] of [5], [3], [8], [7] on an empty ring, then
    [remove_node(5)]. *)
Definition ring_5_3_8_7_less_5 : @ConsistentHashRing Z :=
  run [Add 5; Add 3; Add 8; Add 7; Remove 5] empty_ring.

(** [add_node(-5); add_node(0)] on an empty ring. *)
Definition ring_m5_0 : @ConsistentHashRing Z :=
  run [Add (-5); Add 0] empty_ring.

(** The tree of [ring_5_3_8]. *)
Definition tree_5_3_8 : @SubTree Z :=
  Node 5 5 (Some (Node 3 3 None None)) (Some (Node 8 8 None None)).

(** The tree that [remove_node(5)] leaves of [tree_5_3_8]: the value [8]
    under the key [5]. *)
Definition tree_8_under_5 : @SubTree Z :=
  Node 8 5 (Some (Node 3 3 None None)) None.

(** Python integers and [None] as values: [None] of [option Z] is the
    object [None], whose hash is [hash_None] and which is false in a
    condition. *)
Definition PyIntOrNone : Hashable (option Z) := {|
  hash := fun o => match o with Some n => int_hash n | None => 4238894112 end;
  truth := fun o => match o with Some n => negb (n =? 0) | None => false end;
  py_eq := fun a b =>
    match a, b with
    | Some m, Some n => m =? n
    | None, None => true
    | _, _ => false
    end;
  hash_None := 4238894112
|}.

(** [add_node(None)] on an empty ring. *)
Definition ring_None : @ConsistentHashRing (option Z) :=
  add_node (HV := PyIntOrNone)
    (ConsistentHashRing_init (HV := PyIntOrNone) None) None.

(** The object a call of [find_best_match] returns on such a ring: the value
    found, or [None] when the method returns [None] for want of a value. *)
Definition returned_object (o : option (option Z)) : option Z :=
  match o with Some x => x | None => None end.

(** [add_node] of [5], [3], [8], [remove_node(5)], [add_node(6)],
    [remove_node(3)] on an empty ring: the root holds [8] under the key [5]
    and has [6] as its right child. *)
Definition ring_8_6 : @ConsistentHashRing Z :=
  run [Add 5; Add 3; Add 8; Remove 5; Add 6; Remove 3] empty_ring.

(** [add_node(-2)] on an empty ring. *)
Definition ring_m2 : @ConsistentHashRing Z :=
  run [Add (-2)] empty_ring.

(** * Properties *)

Section Properties.

Context {V : Type} {HV : Hashable V}.

Implicit Types (t : @SubTree V) (v x : V) (k target : Z).

(** ** Two facts on permutations *)

Lemma perm_insert_right {A : Type} (a b : A) l1 l2 l2' :
  Permutation l2' (a :: l2) ->
  Permutation (l1 ++ b :: l2') (a :: l1 ++ b :: l2).
Proof.
  intros H. transitivity (l1 ++ b :: a :: l2).
  - apply Permutation_app_head, perm_skip, H.
  - symmetry. change (l1 ++ b :: a :: l2) with (l1 ++ [b] ++ a :: l2).
    rewrite app_assoc. apply Permutation_cons_app.
    rewrite <- app_assoc. reflexivity.
Qed.

Lemma perm_insert_left {A : Type} (a b : A) l1 l1' l2 :
  Permutation l1' (a :: l1) ->
  Permutation (l1' ++ b :: l2) (a :: l1 ++ b :: l2).
Proof.
  intros H. change (a :: l1 ++ b :: l2) with ((a :: l1) ++ b :: l2).
  apply Permutation_app_tail, H.
Qed.

(** ** The traversal and the stored nodes *)

Lemma nodes_Node x k l r :
  nodes (Node x k l r) = onodes l ++ (x, k) :: onodes r.
Proof. destruct l, r; reflexivity. Qed.

Lemma keys_Node x k l r :
  keys (Node x k l r) = okeys l ++ k :: okeys r.
Proof. unfold keys, okeys. rewrite nodes_Node, map_app. reflexivity. Qed.

Lemma okeys_Some t : okeys (Some t) = keys t.
Proof. reflexivity. Qed.

Lemma iter_nodes t : iter t = map fst (nodes t).
Proof.
  induction t as [x k l r IHl IHr] using SubTree_child_ind.
  rewrite nodes_Node, map_app. simpl.
  destruct l as [l'|], r as [r'|]; simpl in *; congruence.
Qed.

Lemma search_tree_Node x k l r :
  search_tree (Node x k l r) <->
  Forall (fun k' => k' < k) (okeys l) /\ osearch_tree l /\
  Forall (fun k' => k < k') (okeys r) /\ osearch_tree r.
Proof.
  destruct l as [l'|], r as [r'|]; simpl; unfold okeys; simpl;
    intuition auto using Forall_nil.
Qed.

Lemma consistent_Node x k l r :
  consistent (Node x k l r) <->
  Forall (fun p => snd p = hash (fst p)) (onodes l) /\ k = hash x /\
  Forall (fun p => snd p = hash (fst p)) (onodes r).
Proof.
  unfold consistent. rewrite nodes_Node, Forall_app, Forall_cons_iff.
  simpl. tauto.
Qed.

Lemma consistent_keys t : consistent t -> keys t = map hash (iter t).
Proof.
  unfold consistent, keys. rewrite iter_nodes, map_map.
  intros H. apply map_ext_in. intros p Hp.
  rewrite Forall_forall in H. auto.
Qed.

Lemma SubTree_init_search_tree v : search_tree (SubTree_init v).
Proof. simpl. auto. Qed.

Lemma SubTree_init_consistent v : consistent (SubTree_init v).
Proof. repeat constructor. Qed.

(** In a search tree the traversal meets the keys in increasing order. *)
Lemma search_tree_sorted t : search_tree t -> StronglySorted Z.lt (keys t).
Proof.
  induction t as [x k l r IHl IHr] using SubTree_child_ind. rewrite search_tree_Node, keys_Node.
  intros (Hl & Sl & Hr & Sr).
  assert (Ll : StronglySorted Z.lt (okeys l))
    by (destruct l; [apply IHl, Sl | constructor]).
  assert (Lr : StronglySorted Z.lt (okeys r))
    by (destruct r; [apply IHr, Sr | constructor]).
  clear IHl IHr Sl Sr.
  induction Ll as [|a ks Ll IH Ha]; simpl.
  - constructor; assumption.
  - inversion Hl as [|? ? Hak Hks]; subst. constructor; [auto|].
    rewrite Forall_app. split; [assumption|].
    constructor; [assumption|].
    rewrite Forall_forall in Hr |- *. intros b Hb.
    specialize (Hr b Hb). lia.
Qed.

(** ** The minimum *)

Lemma _find_in_order_successor_two_children x k l r' :
  _find_in_order_successor (Node x k l (Some r')) =
  Some (_find_minimum_subtree_child_value r').
Proof. reflexivity. Qed.

Lemma minimum_leftmost t :
  _find_minimum_subtree_child_value t = fst (leftmost t).
Proof.
  induction t as [x k l r IHl IHr] using SubTree_child_ind. destruct l as [l'|]; simpl; auto.
Qed.

Lemma leftmost_head t : exists rest, nodes t = leftmost t :: rest.
Proof.
  induction t as [x k l r IHl IHr] using SubTree_child_ind. destruct l as [l'|]; simpl in *.
  - destruct IHl as [rest E]. rewrite E. simpl. eauto.
  - eauto.
Qed.

Lemma leftmost_in t : In (leftmost t) (nodes t).
Proof. destruct (leftmost_head t) as [rest E]. rewrite E. left. reflexivity. Qed.

(** In a search tree the leftmost node carries the least key. *)
Lemma leftmost_least t :
  search_tree t -> Forall (fun k => snd (leftmost t) <= k) (keys t).
Proof.
  intros St. apply search_tree_sorted in St.
  destruct (leftmost_head t) as [rest E]. unfold keys in *. rewrite E in *.
  simpl in *. inversion St as [|? ? _ Hall]; subst.
  constructor; [lia|].
  eapply Forall_impl; [|exact Hall]. simpl. intros; lia.
Qed.
(** ** [add_child] *)

Lemma add_child_nodes_in t v p :
  In p (nodes (add_child t v)) -> In p (nodes t) \/ p = (v, hash v).
Proof.
  induction t as [x k l r IHl IHr] using SubTree_child_ind. simpl add_child.
  destruct (hash v =? k); [auto|].
  destruct (hash v >? k).
  - destruct r as [r'|]; cbn [on_child] in *; rewrite !nodes_Node;
      simpl onodes; rewrite !in_app_iff; simpl; intuition auto.
  - destruct l as [l'|]; cbn [on_child] in *; rewrite !nodes_Node;
      simpl onodes; rewrite !in_app_iff; simpl; intuition auto.
Qed.

Lemma add_child_keeps t v p :
  In p (nodes t) -> In p (nodes (add_child t v)).
Proof.
  induction t as [x k l r IHl IHr] using SubTree_child_ind. simpl add_child.
  destruct (hash v =? k); [auto|].
  destruct (hash v >? k).
  - destruct r as [r'|]; cbn [on_child] in *; rewrite !nodes_Node;
      simpl onodes; rewrite !in_app_iff; simpl; intuition auto.
  - destruct l as [l'|]; cbn [on_child] in *; rewrite !nodes_Node;
      simpl onodes; rewrite !in_app_iff; simpl; intuition auto.
Qed.

Lemma add_child_keys_Forall (P : Z -> Prop) t v :
  P (hash v) -> Forall P (keys t) -> Forall P (keys (add_child t v)).
Proof.
  intros Pv Pt. unfold keys in *. rewrite Forall_forall in *.
  intros k Hk. apply in_map_iff in Hk. destruct Hk as (p & <- & Hp).
  apply add_child_nodes_in in Hp. destruct Hp as [Hp | ->]; [|exact Pv].
  apply Pt, in_map, Hp.
Qed.

(** [add_child] keeps the search-tree order of the keys. *)
Lemma add_child_search_tree t v :
  search_tree t -> search_tree (add_child t v).
Proof.
  induction t as [x k l r IHl IHr] using SubTree_child_ind.
  intros St. simpl add_child.
  destruct (hash v =? k) eqn:E; [exact St|].
  apply Z.eqb_neq in E.
  apply search_tree_Node in St. destruct St as (Hl & Sl & Hr & Sr).
  destruct (hash v >? k) eqn:G.
  - assert (k < hash v) by lia.
    destruct r as [r'|]; apply search_tree_Node; simpl in *;
      repeat split; auto.
    + apply add_child_keys_Forall; assumption.
    + repeat constructor. assumption.
  - assert (hash v < k) by lia.
    destruct l as [l'|]; apply search_tree_Node; simpl in *;
      repeat split; auto.
    + apply add_child_keys_Forall; assumption.
    + repeat constructor. assumption.
Qed.

(** [add_child] keeps [key == hash(value)] at every node. *)
Lemma add_child_consistent t v :
  consistent t -> consistent (add_child t v).
Proof.
  unfold consistent. rewrite !Forall_forall. intros H p Hp.
  apply add_child_nodes_in in Hp. destruct Hp as [Hp | ->]; auto.
Qed.

(** A value whose key is not stored is added as one new node. *)
Lemma add_child_fresh t v :
  ~ In (hash v) (keys t) ->
  Permutation (nodes (add_child t v)) ((v, hash v) :: nodes t).
Proof.
  induction t as [x k l r IHl IHr] using SubTree_child_ind.
  rewrite keys_Node, in_app_iff. simpl In. intros N. simpl add_child.
  destruct (hash v =? k) eqn:E; [apply Z.eqb_eq in E; symmetry in E; tauto|].
  destruct (hash v >? k).
  - destruct r as [r'|]; rewrite !nodes_Node; simpl onodes.
    + apply perm_insert_right, IHr. unfold okeys in N; simpl in N; tauto.
    + apply perm_insert_right. reflexivity.
  - destruct l as [l'|]; rewrite !nodes_Node; simpl onodes.
    + apply (perm_insert_left (v, hash v)), IHl.
      unfold okeys in N; simpl in N; tauto.
    + reflexivity.
Qed.

(** In a search tree a value whose key is stored is not added: the call
    changes nothing. *)
Lemma add_child_present t v :
  search_tree t -> In (hash v) (keys t) -> add_child t v = t.
Proof.
  induction t as [x k l r IHl IHr] using SubTree_child_ind.
  rewrite search_tree_Node, keys_Node, in_app_iff. simpl In.
  intros (Hl & Sl & Hr & Sr) Hin. simpl add_child.
  destruct (hash v =? k) eqn:E; [reflexivity|]. apply Z.eqb_neq in E.
  rewrite Forall_forall in Hl, Hr.
  destruct (hash v >? k) eqn:G.
  - destruct Hin as [Hin|[Hin|Hin]];
      [apply Hl in Hin; lia | congruence |].
    destruct r as [r'|]; [|destruct Hin].
    simpl in *. rewrite IHr; auto.
  - destruct Hin as [Hin|[Hin|Hin]];
      [| congruence | apply Hr in Hin; lia].
    destruct l as [l'|]; [|destruct Hin].
    simpl in *. rewrite IHl; auto.
Qed.

(** ** [__contains__] *)

(** Right after [add_child(v)] the node answers [v in self] with [True],
    whatever the tree was. *)
Lemma contains_add_child t v : contains (add_child t v) v = true.
Proof.
  induction t as [x k l r IHl IHr] using SubTree_child_ind. simpl add_child.
  destruct (hash v =? k) eqn:E; [simpl; rewrite E; reflexivity|].
  destruct (hash v >? k) eqn:G.
  - destruct r as [r'|]; simpl; rewrite E, G; auto.
    rewrite Z.eqb_refl. reflexivity.
  - destruct l as [l'|]; simpl; rewrite E, G; auto.
    rewrite Z.eqb_refl. reflexivity.
Qed.

(** In a search tree [__contains__] decides whether the key is stored. *)
Lemma contains_keys t v :
  search_tree t -> (contains t v = true <-> In (hash v) (keys t)).
Proof.
  induction t as [x k l r IHl IHr] using SubTree_child_ind.
  rewrite search_tree_Node, keys_Node, in_app_iff. simpl In.
  intros (Hl & Sl & Hr & Sr). simpl contains.
  rewrite Forall_forall in Hl, Hr.
  destruct (hash v =? k) eqn:E.
  { apply Z.eqb_eq in E. intuition auto. }
  apply Z.eqb_neq in E.
  destruct (hash v >? k) eqn:G.
  - destruct r as [r'|]; simpl in *.
    + rewrite IHr by assumption. split; [tauto|].
      intros [Hin|[Hin|Hin]]; [apply Hl in Hin; lia | congruence | exact Hin].
    + split; [discriminate|].
      intros [Hin|[Hin|[]]]; [apply Hl in Hin; lia | congruence].
  - destruct l as [l'|]; simpl in *.
    + rewrite IHl by assumption. split; [tauto|].
      intros [Hin|[Hin|Hin]]; [exact Hin | congruence | apply Hr in Hin; lia].
    + split; [discriminate|].
      intros [[]|[Hin|Hin]]; [congruence | apply Hr in Hin; lia].
Qed.

(** ** [remove_value] *)

(** [remove_value] stores no key that was not stored before. *)
Lemma remove_value_keys_in t v k' :
  In k' (okeys (remove_value t v)) -> In k' (keys t).
Proof.
  revert v. induction t as [x k l r IHl IHr] using SubTree_child_ind.
  intros v. rewrite keys_Node. simpl remove_value.
  destruct (hash v =? k).
  - destruct l as [l'|], r as [r'|]; cbn [on_child] in *.
    + rewrite (okeys_Some (Node _ _ _ _)), keys_Node, !in_app_iff.
      simpl In. intros [H|[H|H]]; auto.
      right; right. eapply IHr, H.
    + rewrite in_app_iff. auto.
    + rewrite in_app_iff. simpl. auto.
    + simpl. tauto.
  - rewrite (okeys_Some (Node _ _ _ _)), keys_Node, !in_app_iff.
    simpl In. intros [H|[H|H]]; auto.
    + left. destruct l as [l'|]; [|destruct H]. eapply IHl, H.
    + right; right. destruct r as [r'|]; [|destruct H]. eapply IHr, H.
Qed.

Lemma remove_value_keys_Forall (P : Z -> Prop) t v :
  Forall P (keys t) -> Forall P (okeys (remove_value t v)).
Proof.
  rewrite !Forall_forall. intros H k' Hk.
  apply H. eapply remove_value_keys_in, Hk.
Qed.

(** [remove_value] keeps the search-tree order of the keys. *)
Lemma remove_value_search_tree t v :
  search_tree t -> osearch_tree (remove_value t v).
Proof.
  revert v. induction t as [x k l r IHl IHr] using SubTree_child_ind.
  intros v. rewrite search_tree_Node. intros (Hl & Sl & Hr & Sr).
  simpl remove_value.
  destruct (hash v =? k).
  - destruct l as [l'|], r as [r'|]; cbn [on_child osearch_tree] in *; auto.
    apply search_tree_Node.
    repeat split; auto; apply remove_value_keys_Forall, Hr.
  - cbn [osearch_tree]. apply search_tree_Node. repeat split.
    + destruct l as [l'|]; [|constructor].
      apply remove_value_keys_Forall, Hl.
    + destruct l as [l'|]; [|exact I]. apply IHl, Sl.
    + destruct r as [r'|]; [|constructor].
      apply remove_value_keys_Forall, Hr.
    + destruct r as [r'|]; [|exact I]. apply IHr, Sr.
Qed.

(** ** Rings reached by calls *)

Lemma apply_op_search_tree (r : ConsistentHashRing) o :
  osearch_tree (head r) -> osearch_tree (head (apply_op r o)).
Proof.
  destruct r as [[h|]], o as [v|v]; simpl; intros S.
  - apply add_child_search_tree, S.
  - apply remove_value_search_tree, S.
  - auto.
  - exact I.
Qed.

Lemma run_search_tree ops (r : ConsistentHashRing) :
  osearch_tree (head r) -> osearch_tree (head (run ops r)).
Proof.
  revert r. induction ops as [|o ops IH]; intros r S; simpl.
  - exact S.
  - apply IH, apply_op_search_tree, S.
Qed.

Lemma init_search_tree o : osearch_tree (head (ConsistentHashRing_init o)).
Proof. destruct o; simpl; auto. Qed.

(** Whatever the calls, the [key] attributes of a ring stay in search-tree
    order. *)
Lemma reached_search_tree o ops t :
  head (run ops (ConsistentHashRing_init o)) = Some t -> search_tree t.
Proof.
  intros E. pose proof (run_search_tree ops _ (init_search_tree o)) as S.
  rewrite E in S. exact S.
Qed.

(** ** The first node above a key *)

Lemma find_app_first {A : Type} (f : A -> bool) l1 l2 :
  find f (l1 ++ l2) =
  match find f l1 with Some a => Some a | None => find f l2 end.
Proof.
  induction l1 as [|a l1 IH]; simpl; [reflexivity|].
  destruct (f a); [reflexivity | exact IH].
Qed.

Lemma find_below target (ns : list (V * Z)) :
  Forall (fun k => k < target) (map snd ns) ->
  find (fun p => target <? snd p) ns = None.
Proof.
  induction ns as [|p ns IH]; simpl; [reflexivity|].
  intros H. inversion H as [|? ? Hp Hns]; subst.
  destruct (target <? snd p) eqn:E; [lia | auto].
Qed.

Lemma successor_Node target x k l r :
  successor target (Node x k l r) =
  match find (fun p => target <? snd p) (onodes l) with
  | Some p => Some p
  | None =>
      if target <? k then Some (x, k)
      else find (fun p => target <? snd p) (onodes r)
  end.
Proof. unfold successor. rewrite nodes_Node, find_app_first. reflexivity. Qed.

(** In a search tree [successor] is the node with the least key above
    [target]. *)
Lemma successor_least target t p :
  search_tree t -> successor target t = Some p ->
  In p (nodes t) /\ target < snd p /\
  forall k, In k (keys t) -> target < k -> snd p <= k.
Proof.
  intros St. apply search_tree_sorted in St. unfold successor, keys in *.
  induction (nodes t) as [|q ns IH]; simpl in *; [discriminate|].
  inversion St as [|? ? Sns Hq]; subst.
  destruct (target <? snd q) eqn:E.
  - intros [= ->]. repeat split; [auto | lia |].
    intros k [<-|Hk] _; [lia|].
    rewrite Forall_forall in Hq. specialize (Hq k Hk). lia.
  - intros F. destruct (IH Sns F) as (Hin & Hlt & Hleast).
    repeat split; [auto | exact Hlt |].
    intros k [<-|Hk] Hk'; [lia | auto].
Qed.

Lemma successor_none target t :
  successor target t = None -> Forall (fun k => k <= target) (keys t).
Proof.
  unfold successor, keys. intros F. rewrite Forall_forall. intros k Hk.
  apply in_map_iff in Hk. destruct Hk as (p & <- & Hp).
  pose proof (find_none _ _ F p Hp) as E. simpl in E. lia.
Qed.

(** ** The loop of [find_best_match] *)

(** Whatever the tree, the loop hands back a stored value, or the
    [best_match] it started with. *)
Lemma walk_stored target t bm bk :
  match walk target t bm bk with
  | inl x => In x (iter t)
  | inr o => o = bm \/ exists b, o = Some b /\ In b (iter t)
  end.
Proof.
  revert bm bk. induction t as [x k l r IHl IHr] using SubTree_child_ind.
  intros bm bk. simpl walk. simpl iter.
  destruct (k =? target).
  { apply in_or_app. right. left. reflexivity. }
  destruct (k >? target).
  - set (bm' := if closer k target bk then Some x else bm).
    assert (Hbm' : bm' = bm \/ bm' = Some x)
      by (unfold bm'; destruct (closer k target bk); auto).
    destruct l as [l'|]; cbn [on_child] in *.
    + specialize (IHl bm' (Some (hash_opt bm'))).
      destruct (walk target l' bm' (Some (hash_opt bm'))) as [y|o].
      * apply in_or_app. auto.
      * destruct IHl as [->|(b & -> & Hb)].
        -- destruct Hbm' as [->| ->]; [auto|].
           right. exists x. split; [reflexivity|].
           apply in_or_app. right. left. reflexivity.
        -- right. exists b. split; [reflexivity|]. apply in_or_app. auto.
    + destruct Hbm' as [->| ->]; [auto|].
      right. exists x. split; [reflexivity|]. left. reflexivity.
  - destruct r as [r'|]; cbn [on_child] in *; [|auto].
    specialize (IHr bm bk).
    destruct (walk target r' bm bk) as [y|o].
    + apply in_or_app. right. right. exact IHr.
    + destruct IHr as [->|(b & -> & Hb)]; [auto|].
      right. exists b. split; [reflexivity|].
      apply in_or_app. right. right. exact Hb.
Qed.

(** When every stored key is below the target, the loop only goes right
    and leaves [best_match] as it was. *)
Lemma walk_above target t bm bk :
  Forall (fun k => k < target) (keys t) -> walk target t bm bk = inr bm.
Proof.
  induction t as [x k l r IHl IHr] using SubTree_child_ind.
  rewrite keys_Node, Forall_app, Forall_cons_iff. intros (_ & Hk & Hr).
  simpl walk.
  destruct (k =? target) eqn:E; [lia|].
  destruct (k >? target) eqn:G; [lia|].
  destruct r as [r'|]; cbn [on_child] in *; auto.
Qed.

(** In a search tree the loop reaches the node whose key is the target. *)
Lemma walk_exact target t x bm bk :
  search_tree t -> In (x, target) (nodes t) -> walk target t bm bk = inl x.
Proof.
  revert bm bk. induction t as [y k l r IHl IHr] using SubTree_child_ind.
  intros bm bk. rewrite search_tree_Node, nodes_Node, in_app_iff. simpl In.
  intros (Hl & Sl & Hr & Sr) Hin. simpl walk.
  assert (Kl : In (x, target) (onodes l) -> target < k).
  { intros H. rewrite Forall_forall in Hl. apply Hl.
    apply (in_map snd) in H. exact H. }
  assert (Kr : In (x, target) (onodes r) -> k < target).
  { intros H. rewrite Forall_forall in Hr. apply Hr.
    apply (in_map snd) in H. exact H. }
  destruct (k =? target) eqn:E.
  { apply Z.eqb_eq in E. destruct Hin as [H|[H|H]].
    - apply Kl in H. lia.
    - congruence.
    - apply Kr in H. lia. }
  apply Z.eqb_neq in E.
  destruct Hin as [H|[H|H]]; [| congruence |].
  - pose proof (Kl H). destruct (k >? target) eqn:G; [|lia].
    destruct l as [l'|]; [|destruct H]. cbn [on_child onodes] in *.
    apply IHl; assumption.
  - pose proof (Kr H). destruct (k >? target) eqn:G; [lia|].
    destruct r as [r'|]; [|destruct H]. cbn [on_child onodes] in *.
    apply IHr; assumption.
Qed.

(** In a search tree whose nodes satisfy [key == hash(value)], and for a
    target that is not stored, the loop ends with the value of the first
    node above the target as [best_match], or with the [best_match] it
    started with when no key is above.  The loop is entered with
    [best_match_key] infinite, or with a [best_match] whose hash is above
    every key of the subtree still to visit. *)
Lemma walk_successor target t bm bk :
  search_tree t -> consistent t -> ~ In target (keys t) ->
  (bk = None \/
   exists b, bm = Some b /\ bk = Some (hash b) /\
             Forall (fun k => k < hash b) (keys t)) ->
  walk target t bm bk =
  inr (match successor target t with Some p => Some (fst p) | None => bm end).
Proof.
  revert bm bk. induction t as [x k l r IHl IHr] using SubTree_child_ind.
  intros bm bk. rewrite search_tree_Node, consistent_Node, keys_Node.
  rewrite in_app_iff. simpl In.
  intros (Hl & Sl & Hr & Sr) (Cl & Ck & Cr) Nin Acc.
  rewrite successor_Node. simpl walk.
  destruct (k =? target) eqn:E; [apply Z.eqb_eq in E; tauto|].
  apply Z.eqb_neq in E.
  destruct (k >? target) eqn:G.
  - assert (Hc : closer k target bk = true).
    { destruct Acc as [->|(b & _ & -> & Hb)]; [reflexivity|].
      rewrite Forall_app, Forall_cons_iff in Hb. simpl. lia. }
    rewrite Hc. simpl hash_opt. replace (target <? k) with true by lia.
    destruct l as [l'|]; cbn [on_child onodes] in *; [|reflexivity].
    rewrite IHl; auto.
    + fold (successor target l'). destruct (successor target l'); reflexivity.
    + right. exists x. subst k. auto.
  - replace (target <? k) with false by lia.
    rewrite find_below
      by (eapply Forall_impl; [|exact Hl]; simpl; intros; lia).
    destruct r as [r'|]; cbn [on_child onodes] in *; [|reflexivity].
    rewrite IHr; auto.
    destruct Acc as [->|(b & -> & -> & Hb)]; [auto|].
    right. exists b. rewrite Forall_app, Forall_cons_iff in Hb.
    intuition auto.
Qed.

(** ** [find_best_match] on a ring *)

(** An exact match wins: in a search tree the value stored under the key of
    the lookup value is returned. *)
Lemma find_best_match_exact t v x :
  search_tree t -> In (x, hash v) (nodes t) ->
  find_best_match (Ring (Some t)) v = Some x.
Proof.
  intros St Hin. unfold find_best_match. cbn [head].
  rewrite (walk_exact _ _ x); auto.
Qed.

(** With [key == hash(value)] at every node, a stored value is its own
    best match. *)
Lemma find_best_match_self t v :
  search_tree t -> consistent t -> In v (iter t) ->
  find_best_match (Ring (Some t)) v = Some v.
Proof.
  intros St Ct Hin. apply find_best_match_exact; [exact St|].
  rewrite iter_nodes in Hin. apply in_map_iff in Hin.
  destruct Hin as ([x k] & E & Hin). simpl in E. subst x.
  unfold consistent in Ct. rewrite Forall_forall in Ct.
  specialize (Ct _ Hin). simpl in Ct. subst k. exact Hin.
Qed.

(** The successor rule as the code has it: the value of the first node above
    the key is returned when that value is true in a condition. *)
Lemma find_best_match_successor t v x k :
  search_tree t -> consistent t -> ~ In (hash v) (keys t) ->
  successor (hash v) t = Some (x, k) -> truth x = true ->
  find_best_match (Ring (Some t)) v = Some x.
Proof.
  intros St Ct Nin Succ Tx. unfold find_best_match. cbn [head].
  rewrite walk_successor by auto. rewrite Succ. simpl. rewrite Tx.
  reflexivity.
Qed.

(** When that value is false in a condition ([0], an empty string, ...), the
    test [if best_match:] fails and the minimum is returned instead. *)
Lemma find_best_match_falsy_successor t v x k :
  search_tree t -> consistent t -> ~ In (hash v) (keys t) ->
  successor (hash v) t = Some (x, k) -> truth x = false ->
  find_best_match (Ring (Some t)) v =
  Some (_find_minimum_subtree_child_value t).
Proof.
  intros St Ct Nin Succ Tx. unfold find_best_match. cbn [head].
  rewrite walk_successor by auto. rewrite Succ. simpl. rewrite Tx.
  reflexivity.
Qed.

(** ** Values added to an empty ring *)

Lemma StronglySorted_map_hash (l : list V) :
  StronglySorted Z.lt (map hash l) ->
  StronglySorted (fun a b => hash a < hash b) l.
Proof.
  induction l as [|a l IH]; simpl; intros S; [constructor|].
  inversion S as [|? ? Sl Ha]; subst. constructor; [auto|].
  rewrite Forall_forall in Ha |- *. intros b Hb.
  apply Ha, in_map, Hb.
Qed.

Lemma add_nodes_invariant vs : forall t,
  search_tree t -> consistent t -> NoDup (map hash vs) ->
  (forall v, In v vs -> ~ In (hash v) (keys t)) ->
  exists t',
    head (fold_left add_node vs (Ring (Some t))) = Some t' /\
    search_tree t' /\ consistent t' /\
    Permutation (nodes t') (map (fun v => (v, hash v)) vs ++ nodes t).
Proof.
  induction vs as [|v vs IH]; intros t St Ct Nd Fresh.
  - exists t. simpl. auto.
  - simpl in Nd. inversion Nd as [|? ? Hv Nd']; subst.
    simpl fold_left. unfold add_node at 2. cbn [head].
    destruct (IH (add_child t v)) as (t' & Eh & St' & Ct' & Pt').
    + apply add_child_search_tree, St.
    + apply add_child_consistent, Ct.
    + exact Nd'.
    + intros w Hw Hin. unfold keys in Hin. apply in_map_iff in Hin.
      destruct Hin as (p & Ep & Hp).
      apply add_child_nodes_in in Hp. destruct Hp as [Hp| ->].
      * apply (Fresh w (or_intror Hw)). rewrite <- Ep.
        apply in_map, Hp.
      * simpl in Ep. apply Hv. rewrite Ep. apply in_map, Hw.
    + exists t'. repeat split; auto.
      rewrite Pt'. simpl map.
      rewrite (add_child_fresh t v) by (apply Fresh; left; reflexivity).
      symmetry. apply Permutation_middle.
Qed.

(** X22. Order preservation for one value or more: values with pairwise
    distinct keys, added in any order to an empty ring, are iterated in
    strictly increasing order of their keys. *)
Theorem add_nodes_sorted v vs :
  NoDup (map hash (v :: vs)) ->
  exists l,
    ring_iter (fold_left add_node (v :: vs) (ConsistentHashRing_init None))
      = Ok l /\
    Permutation l (v :: vs) /\
    StronglySorted (fun a b => hash a < hash b) l.
Proof.
  intros Nd. simpl in Nd. inversion Nd as [|? ? Hv Nd']; subst.
  simpl fold_left. unfold add_node at 2. cbn [head].
  destruct (add_nodes_invariant vs (SubTree_init v)) as (t' & Eh & St & Ct & Pt).
  - apply SubTree_init_search_tree.
  - apply SubTree_init_consistent.
  - exact Nd'.
  - simpl. intros w Hw [E|[]]. apply Hv. rewrite E. apply in_map, Hw.
  - exists (iter t'). unfold ring_iter. rewrite Eh. simpl.
    split; [reflexivity|]. split.
    + rewrite iter_nodes.
      apply (Permutation_map fst) in Pt. rewrite Pt.
      rewrite map_app, map_map. simpl. rewrite map_id.
      symmetry. apply Permutation_cons_append.
    + apply StronglySorted_map_hash. rewrite <- consistent_keys by exact Ct.
      apply search_tree_sorted, St.
Qed.

(** ** Removal at a node with two children *)

(** What [remove_value] does at a node whose key matches and which has both
    children: the value becomes the minimum of the right subtree, that value
    is removed from the right subtree, the left subtree is untouched, and the
    [key] attribute stays as it was. *)
Lemma remove_value_two_children x k l' r' v :
  hash v = k ->
  remove_value (Node x k (Some l') (Some r')) v =
  Some (Node (_find_minimum_subtree_child_value r') k (Some l')
          (remove_value r' (_find_minimum_subtree_child_value r'))).
Proof. intros E. simpl. rewrite E, Z.eqb_refl. reflexivity. Qed.

(** A value whose key is not stored is not removed: the node is returned
    as it was. *)
Lemma remove_value_absent t v :
  ~ In (hash v) (keys t) -> remove_value t v = Some t.
Proof.
  induction t as [x k l r IHl IHr] using SubTree_child_ind.
  rewrite keys_Node, in_app_iff. simpl In. intros N. simpl remove_value.
  destruct (hash v =? k) eqn:E; [apply Z.eqb_eq in E; symmetry in E; tauto|].
  destruct l as [l'|], r as [r'|]; cbn [on_child] in *;
    rewrite ?okeys_Some in N;
    try rewrite IHl by tauto; try rewrite IHr by tauto; reflexivity.
Qed.

(** ** Rings built by [add_node] alone *)

Lemma add_nodes_well_formed vs : forall (r : ConsistentHashRing),
  (forall t, head r = Some t -> search_tree t /\ consistent t) ->
  forall t, head (fold_left add_node vs r) = Some t ->
            search_tree t /\ consistent t.
Proof.
  induction vs as [|v vs IH]; intros r Hr; [exact Hr|].
  simpl fold_left. apply IH. intros t. unfold add_node.
  destruct (head r) as [h|]; cbn [head]; intros [= <-].
  - destruct (Hr h eq_refl) as [S C].
    split; [apply add_child_search_tree, S | apply add_child_consistent, C].
  - split; [apply SubTree_init_search_tree | apply SubTree_init_consistent].
Qed.

Lemma sorted_NoDup (ks : list Z) : StronglySorted Z.lt ks -> NoDup ks.
Proof.
  induction 1 as [|a ks S IH Ha]; constructor; [|exact IH].
  intros Hin. rewrite Forall_forall in Ha. specialize (Ha a Hin). lia.
Qed.

(** X21. On a ring built by [add_node] alone, no two stored values have the
    same key, and every stored value is its own best match. *)
Lemma added_ring_keys_and_lookup vs o t :
  head (fold_left add_node vs (ConsistentHashRing_init o)) = Some t ->
  NoDup (map hash (iter t)) /\
  forall v, In v (iter t) ->
            find_best_match (Ring (Some t)) v = Some v.
Proof.
  intros Eh.
  destruct (add_nodes_well_formed vs (ConsistentHashRing_init o)) with (t := t)
    as [S C]; [|exact Eh|].
  { destruct o as [v|]; simpl; intros t' [= <-].
    split; [apply SubTree_init_search_tree | apply SubTree_init_consistent]. }
  split.
  - rewrite <- consistent_keys by exact C.
    apply sorted_NoDup, search_tree_sorted, S.
  - intros v Hv. apply find_best_match_self; assumption.
Qed.

(** ** Claims on every ring *)

(** X24. Wraparound on the [key] attributes: on a non-empty ring reached by
    any calls of [add_node] and [remove_node], a lookup value whose key is
    above the [key] attribute of every node makes [find_best_match] return
    the value of the node whose [key] attribute is the least.  The attribute
    need not be the hash of that value after a removal at a node with two
    children. *)
Theorem find_best_match_wraparound o ops t v :
  head (run ops (ConsistentHashRing_init o)) = Some t ->
  Forall (fun k => k < hash v) (keys t) ->
  exists x k,
    In (x, k) (nodes t) /\
    Forall (fun k' => k <= k') (keys t) /\
    find_best_match (run ops (ConsistentHashRing_init o)) v = Some x.
Proof.
  intros Eh Above. pose proof (reached_search_tree _ _ _ Eh) as St.
  exists (fst (leftmost t)), (snd (leftmost t)).
  rewrite <- surjective_pairing. split; [apply leftmost_in|].
  split; [apply leftmost_least, St|].
  unfold find_best_match. rewrite Eh.
  rewrite walk_above by exact Above.
  rewrite minimum_leftmost. reflexivity.
Qed.

(** C7. On the empty ring [find_best_match] returns [None], but [len(ring)]
    and iterating the ring raise [TypeError]: both call [iter(self.head)]
    with [self.head] equal to [None]. *)
Theorem empty_ring_len_iter_raise v :
  ring_len (ConsistentHashRing_init (V:=V) None) = Raise TypeError /\
  ring_iter (ConsistentHashRing_init (V:=V) None) = Raise TypeError /\
  find_best_match (ConsistentHashRing_init None) v = None.
Proof. repeat apply conj; reflexivity. Qed.

(** C8, amended. On a non-empty ring whose keys are in search-tree order
    with [key == hash(value)] at every node, and for a value that a stored
    value equals exactly when it has the same hash, [value in ring] (decided
    by iterating the ring, which has no [__contains__]) returns the result
    of the membership test of the root node. *)
Theorem ring_in_root_contains t v :
  search_tree t -> consistent t ->
  (forall x, In x (iter t) -> (py_eq v x = true <-> hash x = hash v)) ->
  ring_in (Ring (Some t)) v = Ok (contains t v).
Proof.
  intros St Ct Heq. unfold ring_in, ring_iter. cbn [head py_iter].
  f_equal. apply eq_true_iff_eq.
  rewrite existsb_exists, (contains_keys t v St), (consistent_keys t Ct).
  rewrite in_map_iff. split.
  - intros (x & Hx & E). exists x. split; [apply Heq; assumption | exact Hx].
  - intros (x & E & Hx). exists x. split; [exact Hx | apply Heq; assumption].
Qed.

(** C10, amended. On a non-empty ring [find_best_match] returns one of the
    values the traversal yields, whatever the lookup value, so that it
    returns [None] there only when [None] is itself stored; on the empty
    ring it returns [None]. *)
Theorem find_best_match_stored (r : ConsistentHashRing) v :
  match head r with
  | Some t => exists x, find_best_match r v = Some x /\ In x (iter t)
  | None => find_best_match r v = None
  end /\
  (forall x, find_best_match r v = Some x -> In x (oiter (head r))).
Proof.
  assert (Hmin : forall t, In (_find_minimum_subtree_child_value t) (iter t)).
  { intros t. rewrite minimum_leftmost, iter_nodes.
    apply in_map, leftmost_in. }
  assert (H : match head r with
              | Some t => exists x, find_best_match r v = Some x /\ In x (iter t)
              | None => find_best_match r v = None
              end).
  { unfold find_best_match. destruct (head r) as [t|]; [|reflexivity].
    pose proof (walk_stored (hash v) t None None) as W.
    destruct (walk (hash v) t None None) as [x|[b|]].
    - eauto.
    - destruct W as [W|(b' & [= ->] & Hb)]; [discriminate|].
      destruct (truth b'); eauto.
    - eauto. }
  split; [exact H|].
  intros x Ex. destruct (head r) as [t|]; cbn [oiter].
  - destruct H as (y & Ey & Hy). congruence.
  - congruence.
Qed.

End Properties.

(** * The claims the code does not meet, on rings of Python integers *)

(** C1. Successor rule: the ring stores [-5] and [0], with keys [-5 < 0];
    the key [-3] lies strictly between them, and [find_best_match(-3)]
    returns [-5], not [0]: the successor [0] is false in [if best_match:],
    so the minimum is returned. *)
Theorem find_best_match_successor_zero :
  ring_iter ring_m5_0 = Ok [-5; 0] /\
  map hash [-5; 0; -3] = [-5; 0; -3] /\
  option_map (successor (hash (-3))) (head ring_m5_0) = Some (Some (0, 0)) /\
  find_best_match ring_m5_0 (-3) = Some (-5).
Proof. repeat apply conj; reflexivity. Qed.

(** C2. Round-trip membership: after [add_node] of [5], [3], [8] and
    [remove_node(5)], the root still answers [5 in root] with [True], as
    its [key] is still [5], while the traversal no longer yields [5].  With
    [7] added as well, [remove_node(5)] moves [7] to the root under the key
    [5]: a later [remove_node(7)] leaves [7] in the ring, and a second
    [remove_node(5)], of a value the ring does not yield, takes [7] out. *)
Theorem contains_after_remove_two_children :
  ring_iter ring_5_3_8 = Ok [3; 5; 8] /\
  ring_iter (remove_node ring_5_3_8 5) = Ok [3; 8] /\
  option_map (fun root => contains root 5) (head (remove_node ring_5_3_8 5))
    = Some true /\
  ring_iter ring_5_3_8_7_less_5 = Ok [3; 7; 8] /\
  ring_iter (remove_node ring_5_3_8_7_less_5 7) = Ok [3; 7; 8] /\
  ring_in (remove_node ring_5_3_8_7_less_5 7) 7 = Ok true /\
  ring_iter (remove_node ring_5_3_8_7_less_5 5) = Ok [3; 8].
Proof. repeat apply conj; reflexivity. Qed.

(** C3. Removal at a node with two children: the root of the ring of [5],
    [3], [8] takes the value [8] of its successor but keeps the key [5], so
    that [key == hash(value)] is lost. *)
Theorem remove_value_two_children_keeps_key :
  head ring_5_3_8 = Some tree_5_3_8 /\
  remove_value tree_5_3_8 5 = Some (Node 8 5 (Some (Node 3 3 None None)) None) /\
  hash 8 = 8 /\
  ~ consistent (Node 8 5 (Some (Node 3 3 None None)) None).
Proof.
  repeat apply conj; try reflexivity. intros C. apply consistent_Node in C.
  destruct C as (_ & C & _). discriminate C.
Qed.

(** C4. Exact-match lookup: after the same calls the ring stores [8], and
    [find_best_match(8)] returns [3]. *)
Theorem find_best_match_after_remove :
  ring_iter ring_5_3_8_less_5 = Ok [3; 8] /\
  find_best_match ring_5_3_8_less_5 8 = Some 3.
Proof. repeat apply conj; reflexivity. Qed.

(** C5. Wraparound rule: after [add_node] of [5], [3], [8],
    [remove_node(5)], [add_node(6)] and [remove_node(3)] the ring stores [8]
    and [6]; the key of [9] is above the keys of both, yet
    [find_best_match(9)] returns [8], not [6], the value with the least key:
    the root holds [8] under the key [5] of the value removed, and the
    minimum is looked for on the left of the root. *)
Theorem find_best_match_wraparound_after_remove :
  head ring_8_6 = Some (Node 8 5 None (Some (Node 6 6 None None))) /\
  ring_iter ring_8_6 = Ok [8; 6] /\
  map hash [8; 6; 9] = [8; 6; 9] /\
  find_best_match ring_8_6 9 = Some 8.
Proof. repeat apply conj; reflexivity. Qed.

(** C6. No duplicate keys: after the same calls [add_node(8)] stores [8] a
    second time, although [8] is stored already; the two have the same
    key. *)
Theorem add_node_duplicate_after_remove :
  ring_iter ring_5_3_8_less_5 = Ok [3; 8] /\
  ring_iter (add_node ring_5_3_8_less_5 8) = Ok [3; 8; 8] /\
  ~ NoDup (map hash [3; 8; 8]).
Proof.
  repeat apply conj; try reflexivity. intros N. inversion N as [|? ? _ N']; subst.
  inversion N' as [|? ? H _]; subst. apply H. left. reflexivity.
Qed.

(** C8, as stated, fails: the ring stores [-2]; [-1] has the same hash, so
    the root answers [True], while [-1 in ring] compares [-1] with the
    values the ring yields and answers [False]. *)
Lemma ring_in_hash_collision :
  head ring_m2 = Some (Node (-2) (-2) None None) /\
  contains (Node (-2) (-2) None None) (-1) = true /\
  ring_in ring_m2 (-1) = Ok false /\
  ring_in ring_m2 (-1) <> Ok (contains (Node (-2) (-2) None None) (-1)).
Proof. repeat apply conj; try reflexivity. discriminate. Qed.

(** On the empty ring [value in ring] raises [TypeError], as iterating the
    ring does. *)
Lemma ring_in_empty_raises (v : Z) : ring_in empty_ring v = Raise TypeError.
Proof. reflexivity. Qed.

(** C10, as stated, fails: after [add_node(None)] the ring is not empty,
    it stores [None], and [find_best_match(None)] returns the stored
    [None]; so does [find_best_match(3)], through the truth test on
    [best_match]. *)
Lemma find_best_match_stored_None :
  head ring_None <> None /\
  ring_iter ring_None = Ok [None] /\
  returned_object (find_best_match (HV := PyIntOrNone) ring_None None) = None /\
  returned_object (find_best_match (HV := PyIntOrNone) ring_None (Some 3))
    = None.
Proof. repeat apply conj; try reflexivity. discriminate. Qed.

(** C9. Order preservation: with no value added the ring is still empty,
    and iterating it raises [TypeError] where the empty sequence is
    expected. *)
Theorem iter_no_value_added :
  NoDup (map hash (@nil Z)) /\
  ring_iter (fold_left add_node (@nil Z) (ConsistentHashRing_init None))
    = Raise TypeError.
Proof. split; [constructor | reflexivity]. Qed.

(** ** The hypotheses of the general claims are met *)

Lemma find_best_match_wraparound_witness :
  head (run [Add 5; Add 3; Add 8] (ConsistentHashRing_init None))
    = Some tree_5_3_8 /\
  Forall (fun k => k < hash 9) (keys tree_5_3_8) /\
  exists x k,
    In (x, k) (nodes tree_5_3_8) /\
    Forall (fun k' => k <= k') (keys tree_5_3_8) /\
    find_best_match (run [Add 5; Add 3; Add 8] (ConsistentHashRing_init None)) 9
      = Some x.
Proof.
  split; [reflexivity|]. split; [repeat constructor|].
  apply (find_best_match_wraparound None [Add 5; Add 3; Add 8] tree_5_3_8 9);
    [reflexivity | repeat constructor].
Defined.

Lemma ring_in_root_contains_witness :
  search_tree tree_5_3_8 /\ consistent tree_5_3_8 /\
  (forall x, In x (iter tree_5_3_8) -> (py_eq 8 x = true <-> hash x = hash 8)) /\
  ring_in (Ring (Some tree_5_3_8)) 8 = Ok (contains tree_5_3_8 8).
Proof.
  assert (S : search_tree tree_5_3_8) by (simpl; repeat constructor).
  assert (C : consistent tree_5_3_8) by (repeat constructor).
  assert (E : forall x, In x (iter tree_5_3_8) ->
                        (py_eq 8 x = true <-> hash x = hash 8)).
  { intros x [<-|[<-|[<-|[]]]]; split; intros E; try reflexivity;
      discriminate E. }
  split; [exact S|]. split; [exact C|]. split; [exact E|].
  apply (ring_in_root_contains tree_5_3_8 8 S C E).
Defined.

(** * Further properties of the code *)

Section Further.

Context {V : Type} {HV : Hashable V}.

Implicit Types (t : @SubTree V) (r : @ConsistentHashRing V) (v w x : V).

(** ** Adding *)

(** [add_child] follows the path of [__contains__]: where the test answers
    [True] nothing changes, where it answers [False] one node is put in
    between two parts of the traversal. *)
Lemma add_child_cases t v :
  (contains t v = true /\ add_child t v = t) \/
  (contains t v = false /\
   exists l1 l2, nodes t = l1 ++ l2 /\
                 nodes (add_child t v) = l1 ++ (v, hash v) :: l2).
Proof.
  induction t as [x k l r IHl IHr] using SubTree_child_ind.
  simpl contains. simpl add_child.
  destruct (hash v =? k); [left; auto|].
  destruct (hash v >? k).
  - destruct r as [r'|]; cbn [on_child] in *.
    + destruct IHr as [[Hc He]|[Hc (l1 & l2 & E1 & E2)]].
      * left. rewrite He. auto.
      * right. split; [exact Hc|].
        exists (onodes l ++ (x, k) :: l1), l2.
        rewrite !nodes_Node. simpl onodes. rewrite E1, E2.
        rewrite <- !app_assoc. auto.
    + right. split; [reflexivity|].
      exists (onodes l ++ [(x, k)]), [].
      rewrite !nodes_Node. simpl onodes.
      rewrite app_nil_r, <- app_assoc. auto.
  - destruct l as [l'|]; cbn [on_child] in *.
    + destruct IHl as [[Hc He]|[Hc (l1 & l2 & E1 & E2)]].
      * left. rewrite He. auto.
      * right. split; [exact Hc|].
        exists l1, (l2 ++ (x, k) :: onodes r).
        rewrite !nodes_Node. simpl onodes. rewrite E1, E2.
        rewrite <- !app_assoc. auto.
    + right. split; [reflexivity|].
      exists [], ((x, k) :: onodes r).
      rewrite !nodes_Node. auto.
Qed.

Lemma add_child_idempotent t v :
  add_child (add_child t v) v = add_child t v.
Proof.
  induction t as [x k l r IHl IHr] using SubTree_child_ind.
  simpl add_child.
  destruct (hash v =? k) eqn:E; [simpl; rewrite E; reflexivity|].
  destruct (hash v >? k) eqn:G.
  - destruct r as [r'|]; cbn [on_child] in *; simpl; rewrite E, G.
    + rewrite IHr. reflexivity.
    + rewrite Z.eqb_refl. reflexivity.
  - destruct l as [l'|]; cbn [on_child] in *; simpl; rewrite E, G.
    + rewrite IHl. reflexivity.
    + rewrite Z.eqb_refl. reflexivity.
Qed.

Lemma count_length (l : list V) n :
  fold_left (fun m _ => m + 1) l n = n + Z.of_nat (length l).
Proof.
  revert n. induction l as [|a l IH]; intros n; simpl fold_left.
  - simpl. lia.
  - rewrite IH. simpl length. lia.
Qed.

(** X1. Whatever the ring, after [add_node(v)] the ring has a root and the
    root answers [v in root] with [True]. *)
Theorem add_node_contains r v :
  exists t, head (add_node r v) = Some t /\ contains t v = true.
Proof.
  destruct r as [[h|]]; unfold add_node; cbn [head].
  - exists (add_child h v). split; [reflexivity | apply contains_add_child].
  - exists (SubTree_init v). split; [reflexivity|].
    simpl. rewrite Z.eqb_refl. reflexivity.
Qed.

(** X2. Adding the same value twice in a row is adding it once, on every
    ring. *)
Theorem add_node_idempotent r v :
  add_node (add_node r v) v = add_node r v.
Proof.
  destruct r as [[h|]]; unfold add_node; cbn [head].
  - rewrite add_child_idempotent. reflexivity.
  - simpl. rewrite Z.eqb_refl. reflexivity.
Qed.

(** X3. What [add_node(v)] does to the traversal: the empty ring yields [v]
    alone; a ring whose root answers [v in root] with [True] is left as it
    is; otherwise [v] is put at one place of the traversal and the values
    stored before keep their order. *)
Theorem add_node_iter r v :
  match head r with
  | None => ring_iter (add_node r v) = Ok [v]
  | Some t =>
      if contains t v then add_node r v = r
      else exists l1 l2,
          iter t = l1 ++ l2 /\ ring_iter (add_node r v) = Ok (l1 ++ v :: l2)
  end.
Proof.
  destruct r as [[t|]]; cbn [head]; [|reflexivity].
  unfold add_node, ring_iter. cbn [head py_iter].
  destruct (add_child_cases t v) as [[Hc He]|[Hc (l1 & l2 & E1 & E2)]];
    rewrite Hc.
  - rewrite He. reflexivity.
  - exists (map fst l1), (map fst l2).
    rewrite !iter_nodes, E1, E2, !map_app. auto.
Qed.

(** X4. After [add_node(v)] the length of the ring is defined and at least
    one: it is one on a ring that was empty, and otherwise the number of
    values stored before, plus one when the root answered [v in root] with
    [False]. *)
Theorem add_node_len r v :
  exists n,
    ring_len (add_node r v) = Ok n /\ 1 <= n /\
    n = match head r with
        | None => 1
        | Some t =>
            Z.of_nat (length (iter t)) + (if contains t v then 0 else 1)
        end.
Proof.
  destruct r as [[t|]]; unfold add_node, ring_len; cbn [head py_iter].
  - rewrite count_length.
    destruct (add_child_cases t v) as [[Hc He]|[Hc (l1 & l2 & E1 & E2)]];
      rewrite Hc.
    + rewrite He. eexists. split; [reflexivity|]. split; [|lia].
      destruct t as [x k l rr]. simpl iter. rewrite length_app. simpl. lia.
    + rewrite !iter_nodes, E1, E2, !length_map, !length_app. simpl length.
      eexists. split; [reflexivity|]. lia.
  - exists 1. simpl. repeat split; lia.
Qed.

(** ** Removing *)

Lemma iter_Node x k (l r : option (@SubTree V)) :
  iter (Node x k l r) = oiter l ++ x :: oiter r.
Proof. destruct l, r; reflexivity. Qed.

Lemma oiter_onodes (o : option (@SubTree V)) : oiter o = map fst (onodes o).
Proof. destruct o; [apply iter_nodes | reflexivity]. Qed.

Lemma oremove_absent (o : option (@SubTree V)) v :
  ~ In (hash v) (okeys o) ->
  match o with Some c => remove_value c v | None => None end = o.
Proof. destruct o as [c|]; [apply remove_value_absent | reflexivity]. Qed.

(** A value just added under a key that was not stored sits in a leaf, and
    [remove_value] takes that leaf away again. *)
Lemma remove_add_child t v :
  ~ In (hash v) (keys t) -> remove_value (add_child t v) v = Some t.
Proof.
  induction t as [x k l r IHl IHr] using SubTree_child_ind.
  rewrite keys_Node, in_app_iff. simpl In. intros N. simpl add_child.
  destruct (hash v =? k) eqn:E; [apply Z.eqb_eq in E; symmetry in E; tauto|].
  destruct (hash v >? k).
  - destruct r as [r'|]; cbn [on_child] in *; simpl remove_value; rewrite E.
    + rewrite IHr by (rewrite okeys_Some in N; tauto).
      rewrite oremove_absent by tauto. reflexivity.
    + rewrite Z.eqb_refl, oremove_absent by tauto. reflexivity.
  - destruct l as [l'|]; cbn [on_child] in *; simpl remove_value; rewrite E.
    + rewrite IHl by (rewrite okeys_Some in N; tauto).
      rewrite oremove_absent by tauto. reflexivity.
    + rewrite Z.eqb_refl, oremove_absent by tauto. reflexivity.
Qed.

(** X5. Removing a value whose key no node carries changes nothing, on the
    empty ring as on any other. *)
Theorem remove_node_absent r v :
  ~ In (hash v) (okeys (head r)) -> remove_node r v = r.
Proof.
  destruct r as [[t|]]; unfold remove_node; cbn [head]; intros N.
  - rewrite remove_value_absent by exact N. reflexivity.
  - reflexivity.
Qed.

(** X6. Round trip: when no node carries the key of [v], [add_node(v)]
    followed by [remove_node(v)] gives the ring back as it was, shape
    included. *)
Theorem remove_node_add_node r v :
  ~ In (hash v) (okeys (head r)) -> remove_node (add_node r v) v = r.
Proof.
  destruct r as [[t|]]; unfold remove_node, add_node; cbn [head]; intros N.
  - rewrite remove_add_child by exact N. reflexivity.
  - simpl. rewrite Z.eqb_refl. reflexivity.
Qed.

Lemma filter_keep_all (f : V -> bool) (l : list V) :
  Forall (fun x => f x = true) l -> filter f l = l.
Proof.
  induction 1 as [|a l Ha _ IH]; simpl; [reflexivity|].
  rewrite Ha, IH. reflexivity.
Qed.

Lemma consistent_values (P : Z -> Prop) (ns : list (V * Z)) :
  Forall (fun p => snd p = hash (fst p)) ns ->
  Forall P (map snd ns) -> Forall (fun y => P (hash y)) (map fst ns).
Proof.
  induction 1 as [|p ns Hp _ IH]; simpl; intros F; [constructor|].
  inversion F as [|? ? Pp Pns]; subst. constructor; [|auto].
  rewrite <- Hp. exact Pp.
Qed.

Lemma keep_other_keys (P : Z -> Prop) (ns : list (V * Z)) h :
  (forall k, P k -> k <> h) ->
  Forall (fun p => snd p = hash (fst p)) ns -> Forall P (map snd ns) ->
  filter (fun x => negb (hash x =? h)) (map fst ns) = map fst ns.
Proof.
  intros HP C F. apply filter_keep_all.
  eapply Forall_impl; [|apply (consistent_values P ns C F)].
  simpl. intros y Py. apply HP in Py.
  apply negb_true_iff, Z.eqb_neq, Py.
Qed.

(** On a search tree with [key == hash(value)] at every node,
    [remove_value] takes out of the traversal the value stored under the
    key, and nothing else. *)
Lemma remove_value_filter t : forall v,
  search_tree t -> consistent t ->
  oiter (remove_value t v) =
  filter (fun x => negb (hash x =? hash v)) (iter t).
Proof.
  induction t as [x k l r IHl IHr] using SubTree_child_ind.
  intros v. rewrite search_tree_Node, consistent_Node.
  intros (Hl & Sl & Hr & Sr) (Cl & Ck & Cr).
  rewrite iter_Node, filter_app. simpl filter. simpl remove_value.
  rewrite !oiter_onodes. subst k.
  destruct (hash v =? hash x) eqn:E.
  - apply Z.eqb_eq in E. rewrite E, Z.eqb_refl. simpl negb.
    rewrite (keep_other_keys (fun k' => k' < hash x) (onodes l))
      by (auto; intros; lia).
    rewrite (keep_other_keys (fun k' => hash x < k') (onodes r))
      by (auto; intros; lia).
    destruct l as [l'|], r as [r'|]; cbn [on_child oiter onodes] in *;
      rewrite <- ?iter_nodes; simpl map; rewrite ?app_nil_r; auto.
    rewrite iter_Node. cbn [oiter]. f_equal.
    rewrite IHr by (auto using Cr).
    set (s := _find_minimum_subtree_child_value r').
    destruct (leftmost_head r') as [rest Er].
    apply search_tree_sorted in Sr. unfold keys in Sr.
    unfold consistent in Cr. rewrite Er in Sr, Cr.
    rewrite iter_nodes, Er. simpl map. simpl filter.
    assert (Es : s = fst (leftmost r')) by apply minimum_leftmost.
    rewrite <- Es. rewrite Z.eqb_refl. simpl negb. f_equal.
    inversion Sr as [|? ? _ Hrest]; subst.
    inversion Cr as [|? ? Cs Crest]; subst.
    apply (keep_other_keys (fun k' => snd (leftmost r') < k')); auto.
    intros k' Hk'. rewrite Es, <- Cs. lia.
  - assert (E' : (hash x =? hash v) = false) by lia.
    rewrite E'. simpl negb. cbn [onodes]. rewrite nodes_Node, map_app.
    simpl map. f_equal.
    + destruct l as [l'|]; cbn [on_child onodes] in *; [|reflexivity].
      rewrite <- oiter_onodes, <- iter_nodes. apply IHl; auto.
    + f_equal.
      destruct r as [r'|]; cbn [on_child onodes] in *; [|reflexivity].
      rewrite <- oiter_onodes, <- iter_nodes. apply IHr; auto.
Qed.

(** X7. On a ring whose keys are in search-tree order with
    [key == hash(value)] at every node (a ring built by [add_node] alone is
    one), [remove_node(v)] takes out of the traversal the value stored under
    the key of [v] and leaves the other values in their order. *)
Theorem remove_node_iter r v :
  (forall t, head r = Some t -> search_tree t /\ consistent t) ->
  oiter (head (remove_node r v)) =
  filter (fun x => negb (hash x =? hash v)) (oiter (head r)).
Proof.
  destruct r as [[t|]]; unfold remove_node; cbn [head]; intros W.
  - destruct (W t eq_refl) as [S C]. apply remove_value_filter; assumption.
  - reflexivity.
Qed.

Lemma remove_value_shrinks t : forall v,
  incl (oiter (remove_value t v)) (iter t) /\
  (length (oiter (remove_value t v)) <= length (iter t))%nat.
Proof.
  induction t as [x k l r IHl IHr] using SubTree_child_ind.
  intros v. rewrite iter_Node. simpl remove_value.
  assert (Min : forall c : @SubTree V,
             In (_find_minimum_subtree_child_value c) (iter c)).
  { intros c. rewrite minimum_leftmost, iter_nodes.
    apply in_map, leftmost_in. }
  destruct (hash v =? k).
  - destruct l as [l'|], r as [r'|]; cbn [on_child oiter] in *.
    + rewrite iter_Node. cbn [oiter].
      destruct (IHr (_find_minimum_subtree_child_value r')) as [I L].
      split.
      * intros y Hy. apply in_app_iff in Hy. apply in_app_iff.
        destruct Hy as [Hy|[<-|Hy]]; auto.
        -- right. right. apply Min.
        -- right. right. apply I, Hy.
      * rewrite !length_app. simpl length. lia.
    + split; [apply incl_appl, incl_refl|].
      rewrite length_app. simpl. lia.
    + split; [apply incl_tl, incl_refl|]. simpl. lia.
    + split; [apply incl_nil_l | simpl; lia].
  - cbn [oiter]. rewrite iter_Node.
    assert (Il : incl (oiter match l with
                              | Some l' => remove_value l' v
                              | None => None
                              end) (oiter l) /\
                 (length (oiter match l with
                                | Some l' => remove_value l' v
                                | None => None
                                end) <= length (oiter l))%nat).
    { destruct l as [l'|]; cbn [on_child oiter] in *;
        [apply IHl | split; [apply incl_refl | lia]]. }
    assert (Ir : incl (oiter match r with
                              | Some r' => remove_value r' v
                              | None => None
                              end) (oiter r) /\
                 (length (oiter match r with
                                | Some r' => remove_value r' v
                                | None => None
                                end) <= length (oiter r))%nat).
    { destruct r as [r'|]; cbn [on_child oiter] in *;
        [apply IHr | split; [apply incl_refl | lia]]. }
    destruct Il as [Il Ll], Ir as [Ir Lr]. split.
    + apply incl_app_app; [exact Il|].
      intros y [<-|Hy]; [left; reflexivity | right; apply Ir, Hy].
    + rewrite !length_app. simpl length. lia.
Qed.

(** X8. [remove_node] never brings in a value and never makes the ring
    longer: on every ring, each value yielded after the call was yielded
    before it, and no more values are yielded than before. *)
Theorem remove_node_shrinks r v :
  incl (oiter (head (remove_node r v))) (oiter (head r)) /\
  (length (oiter (head (remove_node r v))) <= length (oiter (head r)))%nat.
Proof.
  destruct r as [[t|]]; unfold remove_node; cbn [head].
  - apply remove_value_shrinks.
  - split; [apply incl_refl | lia].
Qed.

(** ** What every ring keeps, and the membership test *)

(** X9. Whatever calls of [add_node] and [remove_node] a ring has seen, the
    [key] attributes of its nodes increase strictly along the traversal; no
    two nodes carry the same key. *)
Theorem reached_keys_increasing o ops t :
  head (run ops (ConsistentHashRing_init o)) = Some t ->
  StronglySorted Z.lt (keys t) /\ NoDup (keys t).
Proof.
  intros Eh. apply reached_search_tree in Eh.
  apply search_tree_sorted in Eh. split; [exact Eh|].
  apply sorted_NoDup, Eh.
Qed.

(** X10. On every such ring the membership test of the root is exact for the
    [key] attributes: it answers [True] when some node carries the key of the
    value, and [False] otherwise. *)
Theorem reached_contains_iff o ops t v :
  head (run ops (ConsistentHashRing_init o)) = Some t ->
  (contains t v = true <-> exists x, In (x, hash v) (nodes t)).
Proof.
  intros Eh. apply reached_search_tree in Eh.
  rewrite (contains_keys t v Eh). unfold keys. rewrite in_map_iff. split.
  - intros ([x k] & E & Hin). simpl in E. subst k. eauto.
  - intros (x & Hin). exists (x, hash v). auto.
Qed.

Lemma contains_same_hash t v w :
  hash v = hash w -> contains t v = contains t w.
Proof.
  intros E. induction t as [x k l r IHl IHr] using SubTree_child_ind.
  simpl. rewrite E.
  destruct l as [l'|], r as [r'|]; cbn [on_child] in *;
    rewrite ?IHl, ?IHr; reflexivity.
Qed.

Lemma remove_value_same_hash t v w :
  hash v = hash w -> remove_value t v = remove_value t w.
Proof.
  intros E. induction t as [x k l r IHl IHr] using SubTree_child_ind.
  simpl. rewrite E.
  destruct l as [l'|], r as [r'|]; cbn [on_child] in *;
    rewrite ?IHl, ?IHr; reflexivity.
Qed.

(** X11. Two values with the same hash cannot be told apart: the root's
    membership test, [find_best_match] and [remove_node] answer and act alike
    for both, so a value that was never added is reported, found and removed
    in place of the stored one. *)
Theorem same_hash_same_answers r v w :
  hash v = hash w ->
  option_map (fun t => contains t v) (head r) =
    option_map (fun t => contains t w) (head r) /\
  find_best_match r v = find_best_match r w /\
  remove_node r v = remove_node r w.
Proof.
  intros E. destruct r as [[t|]]; cbn [head option_map].
  - split; [rewrite (contains_same_hash t v w E); reflexivity|].
    unfold find_best_match, remove_node. cbn [head].
    rewrite E, (remove_value_same_hash t v w E). auto.
  - auto.
Qed.

(** ** The helpers of [SubTree] *)

(** X12. [_find_minimum_subtree_child_value] returns the first value of the
    traversal, on every tree. *)
Theorem minimum_first_of_iter t :
  exists rest, iter t = _find_minimum_subtree_child_value t :: rest.
Proof.
  destruct (leftmost_head t) as [rest E].
  exists (map fst rest). rewrite iter_nodes, E, minimum_leftmost.
  reflexivity.
Qed.

(** X13. On a node without a right child [_find_in_order_successor] returns
    [None], even if a value follows in a tree above; on a node with a right
    child it returns the value that follows [self.value] in the traversal. *)
Theorem in_order_successor_next t :
  match right t with
  | None => _find_in_order_successor t = None
  | Some _ =>
      exists s rest,
        _find_in_order_successor t = Some s /\
        iter t = oiter (left t) ++ value t :: s :: rest
  end.
Proof.
  destruct t as [x k l [r'|]]; unfold _find_in_order_successor;
    cbn [right left value]; [|reflexivity].
  destruct (leftmost_head r') as [rest E].
  exists (_find_minimum_subtree_child_value r'), (map fst rest).
  split; [reflexivity|]. rewrite iter_Node. cbn [oiter].
  rewrite (iter_nodes r'), E, minimum_leftmost. reflexivity.
Qed.

(** ** Lookups *)

Lemma in_same_image {A B : Type} (f : A -> B) (l : list A) a b :
  NoDup (map f l) -> In a l -> In b l -> f a = f b -> a = b.
Proof.
  induction l as [|c l IH]; simpl; intros N Ha Hb E; [destruct Ha|].
  inversion N as [|? ? Hc N']; subst.
  destruct Ha as [->|Ha], Hb as [->|Hb]; auto.
  - exfalso. apply Hc. rewrite E. apply in_map, Hb.
  - exfalso. apply Hc. rewrite <- E. apply in_map, Ha.
Qed.

(** In a search tree the node with the least key above a target is what
    [successor] finds. *)
Lemma successor_unique target t x k :
  search_tree t -> In (x, k) (nodes t) -> target < k ->
  (forall k', In k' (keys t) -> k' < target \/ k <= k') ->
  successor target t = Some (x, k).
Proof.
  intros St Hin Hk Hleast.
  destruct (successor target t) as [p|] eqn:F.
  - destruct (successor_least target t p St F) as (Hp & Hlt & Hmin).
    f_equal. apply (in_same_image snd (nodes t)); auto.
    + apply sorted_NoDup, search_tree_sorted, St.
    + simpl.
      assert (snd p <= k) by (apply Hmin; [apply (in_map snd) in Hin|]; auto).
      destruct (Hleast (snd p)); [apply in_map, Hp | lia | lia].
  - apply successor_none in F. rewrite Forall_forall in F.
    apply (in_map snd) in Hin. apply F in Hin. simpl in Hin. lia.
Qed.

(** X14. On a ring whose keys are in search-tree order with
    [key == hash(value)] at every node, a lookup value whose key is below
    every stored key gets the value of the minimum, whatever its truth
    value. *)
Theorem find_best_match_below t v :
  search_tree t -> consistent t ->
  Forall (fun k => hash v < k) (keys t) ->
  find_best_match (Ring (Some t)) v =
  Some (_find_minimum_subtree_child_value t).
Proof.
  intros St Ct Below.
  assert (Nin : ~ In (hash v) (keys t)).
  { intros Hin. rewrite Forall_forall in Below. apply Below in Hin. lia. }
  assert (Succ : successor (hash v) t = Some (leftmost t)).
  { rewrite (surjective_pairing (leftmost t)).
    apply successor_unique; [exact St | | |].
    - rewrite <- surjective_pairing. apply leftmost_in.
    - rewrite Forall_forall in Below. apply Below.
      apply in_map, leftmost_in.
    - intros k' Hk'. right.
      pose proof (leftmost_least t St) as L. rewrite Forall_forall in L.
      apply L, Hk'. }
  rewrite (surjective_pairing (leftmost t)) in Succ.
  destruct (truth (fst (leftmost t))) eqn:T.
  - rewrite (find_best_match_successor t v _ _ St Ct Nin Succ T).
    rewrite minimum_leftmost. reflexivity.
  - apply (find_best_match_falsy_successor t v _ _ St Ct Nin Succ T).
Qed.

(** X15. On such a ring, when [x] is stored under the least key above the
    key of the lookup value and that key itself is not stored,
    [find_best_match] returns [x] if [x] is true in a condition, and the
    value of the minimum if [x] is false in a condition. *)
Theorem find_best_match_next_key t v x k :
  search_tree t -> consistent t ->
  In (x, k) (nodes t) -> hash v < k ->
  (forall k', In k' (keys t) -> k' < hash v \/ k <= k') ->
  find_best_match (Ring (Some t)) v =
  Some (if truth x then x else _find_minimum_subtree_child_value t).
Proof.
  intros St Ct Hin Hk Hleast.
  assert (Nin : ~ In (hash v) (keys t)).
  { intros H. apply Hleast in H. lia. }
  pose proof (successor_unique _ _ _ _ St Hin Hk Hleast) as Succ.
  destruct (truth x) eqn:T.
  - apply (find_best_match_successor t v x k); assumption.
  - apply (find_best_match_falsy_successor t v x k); assumption.
Qed.

(** X16. On every ring reached by calls of [add_node] and [remove_node], a
    lookup value whose key is the [key] attribute of a node gets the value of
    that node. *)
Theorem reached_find_best_match_exact o ops t v x :
  head (run ops (ConsistentHashRing_init o)) = Some t ->
  In (x, hash v) (nodes t) ->
  find_best_match (run ops (ConsistentHashRing_init o)) v = Some x.
Proof.
  intros Eh Hin. pose proof (reached_search_tree _ _ _ Eh) as St.
  destruct (run ops (ConsistentHashRing_init o)) as [h].
  cbn [head] in Eh. subst h. apply find_best_match_exact; assumption.
Qed.

(** ** Values added in increasing order of their keys *)

Lemma chain_cons v (vs : list V) :
  chain (v :: vs) = Some (Node v (hash v) None (chain vs)).
Proof. reflexivity. Qed.

Lemma oiter_chain (vs : list V) : oiter (chain vs) = vs.
Proof.
  induction vs as [|v vs IH]; [reflexivity|].
  rewrite chain_cons. cbn [oiter]. rewrite iter_Node, IH. reflexivity.
Qed.

Lemma add_child_right x k (l r : option (@SubTree V)) v :
  k < hash v ->
  add_child (Node x k l r) v =
  Node x k l
    (Some match r with Some r' => add_child r' v | None => SubTree_init v end).
Proof.
  intros H. simpl.
  replace (hash v =? k) with false by lia.
  replace (hash v >? k) with true by lia.
  destruct r; reflexivity.
Qed.

Lemma add_child_chain (pre : list V) : forall a v,
  Forall (fun y => hash y < hash v) (a :: pre) ->
  add_child (Node a (hash a) None (chain pre)) v =
  Node a (hash a) None (chain (pre ++ [v])).
Proof.
  induction pre as [|b pre IH]; intros a v F;
    inversion F as [|? ? Ha Fpre]; subst;
    rewrite add_child_right by exact Ha.
  - reflexivity.
  - rewrite chain_cons, IH by exact Fpre. reflexivity.
Qed.

Lemma sorted_before (R : V -> V -> Prop) (pre : list V) v post :
  StronglySorted R (pre ++ v :: post) -> Forall (fun y => R y v) pre.
Proof.
  induction pre as [|a pre IH]; simpl; intros S; [constructor|].
  inversion S as [|? ? S' Ha]; subst. constructor; [|auto].
  rewrite Forall_forall in Ha. apply Ha, in_elt.
Qed.

Lemma add_node_chain (pre : list V) v :
  Forall (fun y => hash y < hash v) pre ->
  add_node (Ring (chain pre)) v = Ring (chain (pre ++ [v])).
Proof.
  intros F. unfold add_node. destruct pre as [|a pre]; [reflexivity|].
  rewrite chain_cons. cbn [head]. rewrite add_child_chain by exact F.
  reflexivity.
Qed.

Lemma add_nodes_chain (vs : list V) : forall pre,
  StronglySorted (fun a b => hash a < hash b) (pre ++ vs) ->
  fold_left add_node vs (Ring (chain pre)) = Ring (chain (pre ++ vs)).
Proof.
  induction vs as [|v vs IH]; intros pre S; cbn [fold_left].
  - rewrite app_nil_r. reflexivity.
  - rewrite add_node_chain by (apply sorted_before in S; exact S).
    rewrite IH; rewrite <- app_assoc; [reflexivity | exact S].
Qed.

Lemma remove_node_chain v (vs : list V) :
  remove_node (Ring (chain (v :: vs))) v = Ring (chain vs).
Proof.
  unfold remove_node. cbn [head]. rewrite chain_cons.
  simpl remove_value. rewrite Z.eqb_refl.
  destruct (chain vs); reflexivity.
Qed.

Lemma remove_nodes_chain (vs : list V) :
  fold_left remove_node vs (Ring (chain vs)) = Ring None.
Proof.
  induction vs as [|v vs IH]; [reflexivity|].
  cbn [fold_left]. rewrite remove_node_chain. exact IH.
Qed.

(** X17. Values added to an empty ring in strictly increasing order of
    their keys form a chain that leans to the right, one node below the
    other, and the ring yields them in the order they were added. *)
Theorem add_nodes_increasing (vs : list V) :
  StronglySorted (fun a b => hash a < hash b) vs ->
  head (fold_left add_node vs (ConsistentHashRing_init None)) = chain vs /\
  oiter (head (fold_left add_node vs (ConsistentHashRing_init None))) = vs.
Proof.
  intros S. change (ConsistentHashRing_init None) with (Ring (chain [])).
  rewrite (add_nodes_chain vs []) by exact S. cbn [head app].
  split; [reflexivity | apply oiter_chain].
Qed.

(** X18. Round trip on such values: removing them all, in the order they
    were added, leaves the ring empty. *)
Theorem remove_nodes_increasing (vs : list V) :
  StronglySorted (fun a b => hash a < hash b) vs ->
  fold_left remove_node vs
    (fold_left add_node vs (ConsistentHashRing_init None)) = Ring None.
Proof.
  intros S. change (ConsistentHashRing_init None) with (Ring (chain [])).
  rewrite (add_nodes_chain vs []) by exact S. apply remove_nodes_chain.
Qed.

(** ** Values added in any order, with or without equal keys *)

Lemma existsb_eqb_In h (seen : list Z) :
  existsb (Z.eqb h) seen = true <-> In h seen.
Proof.
  rewrite existsb_exists. split.
  - intros (k & Hk & E). apply Z.eqb_eq in E. subst k. exact Hk.
  - intros H. exists h. split; [exact H | apply Z.eqb_refl].
Qed.

Lemma add_nodes_keep_first (vs : list V) : forall t seen,
  search_tree t -> consistent t ->
  (forall k, In k seen <-> In k (keys t)) ->
  exists t',
    head (fold_left add_node vs (Ring (Some t))) = Some t' /\
    search_tree t' /\ consistent t' /\
    Permutation (iter t') (iter t ++ keep_first seen vs).
Proof.
  induction vs as [|v vs IH]; intros t seen St Ct Seen.
  - exists t. simpl. rewrite app_nil_r. auto.
  - simpl fold_left. unfold add_node at 2. cbn [head]. simpl keep_first.
    destruct (existsb (Z.eqb (hash v)) seen) eqn:E.
    + apply existsb_eqb_In, Seen in E.
      rewrite add_child_present by assumption. apply IH; assumption.
    + assert (N : ~ In (hash v) (keys t)).
      { intros H. apply Seen, existsb_eqb_In in H. congruence. }
      pose proof (add_child_fresh t v N) as P.
      destruct (IH (add_child t v) (hash v :: seen))
        as (t' & Eh & St' & Ct' & Pt').
      * apply add_child_search_tree, St.
      * apply add_child_consistent, Ct.
      * intros k. unfold keys.
        split.
        -- intros Hk. apply (Permutation_in _ (Permutation_sym (Permutation_map snd P))).
           simpl. destruct Hk as [<-|Hk]; [auto|]. right. apply Seen, Hk.
        -- intros Hk. apply (Permutation_in _ (Permutation_map snd P)) in Hk.
           simpl in Hk. destruct Hk as [<-|Hk]; [left; auto|].
           right. apply Seen, Hk.
      * exists t'. repeat split; auto.
        rewrite Pt'. rewrite !iter_nodes.
        rewrite (Permutation_map fst P). simpl map.
        apply Permutation_middle.
Qed.

(** X19. Values added to an empty ring in any order: the ring yields, in
    strictly increasing order of their keys, the values that were the first
    with their key; a value whose key an earlier value had is dropped. *)
Theorem add_nodes_first_wins v (vs : list V) :
  exists l,
    ring_iter (fold_left add_node (v :: vs) (ConsistentHashRing_init None))
      = Ok l /\
    Permutation l (keep_first [] (v :: vs)) /\
    StronglySorted (fun a b => hash a < hash b) l.
Proof.
  simpl fold_left. unfold add_node at 2. cbn [head ConsistentHashRing_init].
  destruct (add_nodes_keep_first vs (SubTree_init v) [hash v])
    as (t' & Eh & St & Ct & Pt).
  - apply SubTree_init_search_tree.
  - apply SubTree_init_consistent.
  - intros k. reflexivity.
  - exists (iter t'). unfold ring_iter. rewrite Eh. cbn [py_iter].
    split; [reflexivity|]. split; [exact Pt|].
    apply StronglySorted_map_hash. rewrite <- consistent_keys by exact Ct.
    apply search_tree_sorted, St.
Qed.

(** X25. On a ring whose keys are in search-tree order with
    [key == hash(value)] at every node, a lookup value whose key is above the
    key of every stored value gets the minimum, the stored value with the
    least key. *)
Theorem find_best_match_above t v :
  search_tree t -> consistent t ->
  Forall (fun x => hash x < hash v) (iter t) ->
  find_best_match (Ring (Some t)) v =
    Some (_find_minimum_subtree_child_value t) /\
  In (_find_minimum_subtree_child_value t) (iter t) /\
  Forall (fun x => hash (_find_minimum_subtree_child_value t) <= hash x)
    (iter t).
Proof.
  intros St Ct Above.
  pose proof (leftmost_in t) as Lin. pose proof (leftmost_least t St) as L.
  assert (Ek : snd (leftmost t) = hash (fst (leftmost t))).
  { unfold consistent in Ct. rewrite Forall_forall in Ct. apply Ct, Lin. }
  rewrite minimum_leftmost. repeat split.
  - unfold find_best_match. cbn [head]. rewrite walk_above.
    + rewrite minimum_leftmost. reflexivity.
    + rewrite (consistent_keys t Ct), Forall_map. exact Above.
  - rewrite iter_nodes. apply in_map, Lin.
  - rewrite (consistent_keys t Ct), Forall_map, Ek in L. exact L.
Qed.

(** ** Adding, then looking up *)

(** X20. Round trip: on every ring reached by calls of [add_node] and
    [remove_node], a value added while the root answers [v in root] with
    [False] (or while the ring is empty) is its own best match right
    after. *)
Theorem find_best_match_after_add o ops v :
  (forall t, head (run ops (ConsistentHashRing_init o)) = Some t ->
             contains t v = false) ->
  find_best_match (add_node (run ops (ConsistentHashRing_init o)) v) v
    = Some v.
Proof.
  intros Hc.
  assert (St : osearch_tree (head (run ops (ConsistentHashRing_init o))))
    by apply run_search_tree, init_search_tree.
  destruct (run ops (ConsistentHashRing_init o)) as [[t|]];
    unfold add_node; cbn [head] in *.
  - apply find_best_match_exact; [apply add_child_search_tree, St|].
    destruct (add_child_cases t v) as [[C _]|[_ (l1 & l2 & _ & E)]].
    + rewrite (Hc t eq_refl) in C. discriminate C.
    + rewrite E. apply in_elt.
  - apply find_best_match_exact; [apply SubTree_init_search_tree|].
    left. reflexivity.
Qed.

(** ** When a removal keeps [key == hash(value)] *)

(** X23. On a tree whose keys are in search-tree order with
    [key == hash(value)] at every node, [remove_value(v)] leaves
    [key == hash(value)] at every node exactly when the node carrying the key
    of [v], if there is one, has fewer than two children; a removal at a node
    with two children leaves the successor's value under the old key. *)
Theorem remove_value_consistent_iff t : forall v,
  search_tree t -> consistent t ->
  (Forall (fun p => snd p = hash (fst p)) (onodes (remove_value t v)) <->
   two_children_under (hash v) t = false).
Proof.
  induction t as [x k l r IHl IHr] using SubTree_child_ind.
  intros v. rewrite search_tree_Node, consistent_Node.
  intros (Hl & Sl & Hr & Sr) (Cl & Ck & Cr).
  simpl remove_value. simpl two_children_under.
  destruct (hash v =? k) eqn:E.
  - destruct l as [l'|], r as [r'|]; cbn [onodes] in *;
      try (split; [reflexivity | intros _; auto using Forall_nil]).
    split; [|discriminate]. intros C. exfalso.
    rewrite nodes_Node, Forall_app, Forall_cons_iff in C.
    destruct C as (_ & Ek & _). cbn [fst snd] in Ek.
    destruct (leftmost_head r') as [rest Er].
    rewrite minimum_leftmost in Ek.
    rewrite okeys_Some in Hr. unfold keys in Hr. rewrite Er in Hr, Cr.
    inversion Hr as [|? ? Hlt _]; subst.
    inversion Cr as [|? ? Hc _]; subst. lia.
  - cbn [onodes]. rewrite nodes_Node, Forall_app, Forall_cons_iff.
    cbn [fst snd]. rewrite orb_false_iff.
    assert (Al : Forall (fun p => snd p = hash (fst p))
                   (onodes match l with
                           | Some l' => remove_value l' v
                           | None => None
                           end) <->
                 match l with
                 | Some l' => two_children_under (hash v) l'
                 | None => false
                 end = false).
    { destruct l as [l'|]; cbn [on_child] in *;
        [apply IHl; assumption | split; [reflexivity | constructor]]. }
    assert (Ar : Forall (fun p => snd p = hash (fst p))
                   (onodes match r with
                           | Some r' => remove_value r' v
                           | None => None
                           end) <->
                 match r with
                 | Some r' => two_children_under (hash v) r'
                 | None => false
                 end = false).
    { destruct r as [r'|]; cbn [on_child] in *;
        [apply IHr; assumption | split; [reflexivity | constructor]]. }
    rewrite Al, Ar. tauto.
Qed.

End Further.

(** ** The hypotheses of the further properties are met *)

(** A key is none of the keys listed. *)
Ltac key_absent := vm_compute; intuition discriminate.

Lemma remove_node_absent_witness :
  ~ In (hash 7) (okeys (head ring_5_3_8)) /\
  remove_node ring_5_3_8 7 = ring_5_3_8.
Proof.
  assert (N : ~ In (hash 7) (okeys (head ring_5_3_8))) by key_absent.
  split; [exact N | apply (remove_node_absent ring_5_3_8 7 N)].
Defined.

Lemma remove_node_add_node_witness :
  ~ In (hash 7) (okeys (head ring_5_3_8)) /\
  remove_node (add_node ring_5_3_8 7) 7 = ring_5_3_8.
Proof.
  assert (N : ~ In (hash 7) (okeys (head ring_5_3_8))) by key_absent.
  split; [exact N | apply (remove_node_add_node ring_5_3_8 7 N)].
Defined.

Lemma tree_5_3_8_well_formed :
  forall t, head (Ring (Some tree_5_3_8)) = Some t ->
            search_tree t /\ consistent t.
Proof.
  intros t [= <-]. split; [simpl; repeat constructor | repeat constructor].
Defined.

Lemma remove_node_iter_witness :
  oiter (head (remove_node (Ring (Some tree_5_3_8)) 5)) =
  filter (fun x => negb (hash x =? hash 5)) (oiter (head (Ring (Some tree_5_3_8)))).
Proof.
  apply (remove_node_iter (Ring (Some tree_5_3_8)) 5 tree_5_3_8_well_formed).
Defined.

Lemma reached_keys_increasing_witness :
  head (run [Add 5; Add 3; Add 8; Remove 5] (ConsistentHashRing_init None))
    = Some tree_8_under_5 /\
  StronglySorted Z.lt (keys tree_8_under_5) /\ NoDup (keys tree_8_under_5).
Proof.
  split; [reflexivity|].
  apply (reached_keys_increasing None [Add 5; Add 3; Add 8; Remove 5]
           tree_8_under_5).
  reflexivity.
Defined.

Lemma reached_contains_iff_witness :
  head (run [Add 5; Add 3; Add 8; Remove 5] (ConsistentHashRing_init None))
    = Some tree_8_under_5 /\
  (contains tree_8_under_5 5 = true <->
   exists x, In (x, hash 5) (nodes tree_8_under_5)).
Proof.
  split; [reflexivity|].
  apply (reached_contains_iff None [Add 5; Add 3; Add 8; Remove 5]
           tree_8_under_5 5).
  reflexivity.
Defined.

Lemma same_hash_same_answers_witness :
  hash (-1) = hash (-2) /\
  option_map (fun t => contains t (-1)) (head ring_m2) =
    option_map (fun t => contains t (-2)) (head ring_m2) /\
  find_best_match ring_m2 (-1) = find_best_match ring_m2 (-2) /\
  remove_node ring_m2 (-1) = remove_node ring_m2 (-2).
Proof.
  split; [reflexivity|].
  apply (same_hash_same_answers ring_m2 (-1) (-2)). reflexivity.
Defined.

Lemma find_best_match_below_witness :
  Forall (fun k => hash 1 < k) (keys tree_5_3_8) /\
  find_best_match (Ring (Some tree_5_3_8)) 1 =
  Some (_find_minimum_subtree_child_value tree_5_3_8).
Proof.
  destruct (tree_5_3_8_well_formed tree_5_3_8 eq_refl) as [S C].
  assert (B : Forall (fun k => hash 1 < k) (keys tree_5_3_8))
    by (repeat constructor).
  split; [exact B | apply (find_best_match_below tree_5_3_8 1 S C B)].
Defined.

Lemma find_best_match_next_key_witness :
  In (5, 5) (nodes tree_5_3_8) /\ hash 4 < 5 /\
  find_best_match (Ring (Some tree_5_3_8)) 4 =
  Some (if truth 5 then 5 else _find_minimum_subtree_child_value tree_5_3_8).
Proof.
  destruct (tree_5_3_8_well_formed tree_5_3_8 eq_refl) as [S C].
  assert (I : In (5, 5) (nodes tree_5_3_8)) by (right; left; reflexivity).
  assert (L : hash 4 < 5) by reflexivity.
  split; [exact I|]. split; [exact L|].
  apply (find_best_match_next_key tree_5_3_8 4 5 5 S C I L).
  intros k' [<-|[<-|[<-|[]]]]; vm_compute;
    [left; reflexivity | right; discriminate | right; discriminate].
Defined.

Lemma reached_find_best_match_exact_witness :
  head (run [Add 5; Add 3; Add 8; Remove 5] (ConsistentHashRing_init None))
    = Some tree_8_under_5 /\
  In (8, hash 5) (nodes tree_8_under_5) /\
  find_best_match
    (run [Add 5; Add 3; Add 8; Remove 5] (ConsistentHashRing_init None)) 5
    = Some 8.
Proof.
  split; [reflexivity|].
  assert (I : In (8, hash 5) (nodes tree_8_under_5))
    by (right; left; reflexivity).
  split; [exact I|].
  apply (reached_find_best_match_exact None [Add 5; Add 3; Add 8; Remove 5]
           tree_8_under_5 5 8); [reflexivity | exact I].
Defined.

Lemma values_3_5_8_increasing :
  StronglySorted (fun a b => hash a < hash b) [3; 5; 8].
Proof. repeat constructor. Defined.

Lemma add_nodes_increasing_witness :
  head (fold_left add_node [3; 5; 8] (ConsistentHashRing_init None))
    = chain [3; 5; 8] /\
  oiter (head (fold_left add_node [3; 5; 8] (ConsistentHashRing_init None)))
    = [3; 5; 8].
Proof. apply (add_nodes_increasing [3; 5; 8] values_3_5_8_increasing). Defined.

Lemma remove_nodes_increasing_witness :
  fold_left remove_node [3; 5; 8]
    (fold_left add_node [3; 5; 8] (ConsistentHashRing_init None)) = Ring None.
Proof. apply (remove_nodes_increasing [3; 5; 8] values_3_5_8_increasing). Defined.

Lemma find_best_match_after_add_witness :
  find_best_match
    (add_node
       (run [Add 5; Add 3; Add 8; Remove 5] (ConsistentHashRing_init None)) 9)
    9 = Some 9.
Proof.
  apply (find_best_match_after_add None [Add 5; Add 3; Add 8; Remove 5] 9).
  intros t [= <-]. reflexivity.
Defined.

Lemma added_ring_keys_and_lookup_witness :
  head (fold_left add_node [5; 3; 8] (ConsistentHashRing_init None))
    = Some tree_5_3_8 /\
  NoDup (map hash (iter tree_5_3_8)) /\
  forall v, In v (iter tree_5_3_8) ->
            find_best_match (Ring (Some tree_5_3_8)) v = Some v.
Proof.
  split; [reflexivity|].
  apply (added_ring_keys_and_lookup [5; 3; 8] None tree_5_3_8). reflexivity.
Defined.

Lemma add_nodes_sorted_witness :
  NoDup (map hash [5; 3; 8]) /\
  exists l,
    ring_iter (fold_left add_node [5; 3; 8] (ConsistentHashRing_init None))
      = Ok l /\
    Permutation l [5; 3; 8] /\
    StronglySorted (fun a b => hash a < hash b) l.
Proof.
  assert (N : NoDup (map hash [5; 3; 8])).
  { repeat (apply NoDup_cons; [key_absent|]). apply NoDup_nil. }
  split; [exact N | apply (add_nodes_sorted 5 [3; 8] N)].
Defined.

Lemma remove_value_consistent_iff_witness :
  Forall (fun p => snd p = hash (fst p)) (onodes (remove_value tree_5_3_8 3))
  <-> two_children_under (hash 3) tree_5_3_8 = false.
Proof.
  destruct (tree_5_3_8_well_formed tree_5_3_8 eq_refl) as [S C].
  apply (remove_value_consistent_iff tree_5_3_8 3 S C).
Defined.

Lemma find_best_match_above_witness :
  Forall (fun x => hash x < hash 9) (iter tree_5_3_8) /\
  find_best_match (Ring (Some tree_5_3_8)) 9 =
    Some (_find_minimum_subtree_child_value tree_5_3_8) /\
  In (_find_minimum_subtree_child_value tree_5_3_8) (iter tree_5_3_8) /\
  Forall (fun x => hash (_find_minimum_subtree_child_value tree_5_3_8) <= hash x)
    (iter tree_5_3_8).
Proof.
  destruct (tree_5_3_8_well_formed tree_5_3_8 eq_refl) as [S C].
  assert (A : Forall (fun x => hash x < hash 9) (iter tree_5_3_8))
    by (repeat constructor).
  split; [exact A | apply (find_best_match_above tree_5_3_8 9 S C A)].
Defined.
